(** * PositiveEtalonModel: value, x-derivative and parameter partials

    A shallow embedding of [breads/jwst_tools/PositiveEtalonModel.py].

    The Python class computes, with numpy,

      f(x:p) = p_0 / (1 + p_1^2 * sin^2(pi * p_2 * x + p_3))

    together with df/dx ([baseDerivative]) and the four partials df/dp_k
    ([basePartial]).  The arithmetic of the source is kept abstract behind
    the class [Float64Ops]: every function below is written once, with the
    operations in the order in which Python evaluates them, and is then read
    - over the real numbers ([R_ops]), the mathematical meaning of the
      formulas, and
    - over IEEE-754 binary64 ([binary64_ops]), the numbers numpy computes
      with. *)

From Stdlib Require Import Reals Lra ZArith String.
From Stdlib Require Import Floats.
From stdpp Require Import base option list gmap.

(** ** The arithmetic the source uses *)

(** The scalar operations that occur in the source: [+], [*], [/] on
    floats, [numpy.sin], [numpy.cos], the constant [math.pi], and the
    conversion of the integer literals ([1], [- 2]) that meet a float in
    mixed arithmetic.  The float literals [1.0] and [0.0] are the numbers
    [of_int 1] and [of_int 0]. *)
Class Float64Ops (F : Type) : Type := {
  fadd : F -> F -> F;
  fmul : F -> F -> F;
  fdiv : F -> F -> F;
  fsin : F -> F;
  fcos : F -> F;
  math_pi : F;
  of_int : Z -> F
}.

(** ** The instance, its units, and exceptions *)

(** The attributes of [self] that the methods read; they are set by the
    fitting framework's base classes, which this repository does not hold.
    The constructor passes 4 parameters and, without fixed parameters,
    [npbase = npmax = 4]. *)
Record PositiveEtalonModel (U : Type) : Type := {
  npbase : nat;
  npmax : nat;
  xUnit : U;
  yUnit : U
}.
Arguments npbase {U} _.
Arguments npmax {U} _.
Arguments xUnit {U} _.
Arguments yUnit {U} _.

(** What the source uses of [astropy.units]: [units.Unit( s )] on a string,
    [units.Unit( u )] on a unit, the unit [units.si.rad] and the quotient of
    two units. *)
Class UnitOps (U : Type) : Type := {
  units_Unit_str : string -> U;
  units_Unit : U -> U;
  units_si_rad : U;
  unit_div : U -> U -> U
}.

(** The names of the objects of a store. *)
Abbreviation loc := positive.

(** The exceptions the methods can raise. *)
Inductive exn : Type := IndexError | KeyError | TypeError | ValueError.

Inductive result (T : Type) : Type :=
| Ok (t : T)
| Raise (e : exn).
Arguments Ok {T} _.
Arguments Raise {T} _.

(** ** Value-level model: numpy arrays as lists *)

Section Model.
Context {F : Type} `{Float64Ops F}.

(** Elementwise numpy operations on one-dimensional arrays.  The names say
    which operand is the array ([a]) and which the scalar ([s]). *)
Definition mul_sa (c : F) (v : list F) : list F := (fmul c) <$> v.
Definition mul_as (v : list F) (c : F) : list F := (fun t => fmul t c) <$> v.
Definition add_as (v : list F) (c : F) : list F := (fun t => fadd t c) <$> v.
Definition add_sa (c : F) (v : list F) : list F := (fadd c) <$> v.
Definition div_sa (c : F) (v : list F) : list F := (fdiv c) <$> v.
Definition mul_aa (v w : list F) : list F := zip_with fmul v w.
Definition div_aa (v w : list F) : list F := zip_with fdiv v w.
Definition np_sin (v : list F) : list F := fsin <$> v.
Definition np_cos (v : list F) : list F := fcos <$> v.

(** [x = math.pi * xdata * params[2] + params[3]], shared by the three
    entry points. *)
Definition phase (xdata : list F) (p2 p3 : F) : list F :=
  add_as (mul_as (mul_sa math_pi xdata) p2) p3.

(** The constructor's initial parameters and their names. *)
Definition default_params : list F := [of_int 1; of_int 1; of_int 1; of_int 0].
Definition parameter_names : list string :=
  ["amplitude"; "finesse"; "frequency"; "phase"]%string.

(** [baseResult]: [None] stands for the [IndexError] of [params[k]] on a
    parameter vector that is too short. *)
Definition baseResult (xdata params : list F) : option (list F) :=
  p2 ← params !! 2%nat;
  p3 ← params !! 3%nat;
  let x := phase xdata p2 p3 in
  let sx := np_sin x in
  p0 ← params !! 0%nat;
  p1 ← params !! 1%nat;
  Some (div_sa p0 (add_sa (of_int 1) (mul_aa (mul_sa (fmul p1 p1) sx) sx))).

(** [baseDerivative].  [dd *= dd] squares the denominator; the numerator
    is the left-to-right product
    [- 2 * math.pi * params[0] * params[1] * params[1] * params[2] * sx * cos(x)]. *)
Definition baseDerivative (xdata params : list F) : option (list F) :=
  p2 ← params !! 2%nat;
  p3 ← params !! 3%nat;
  let x := phase xdata p2 p3 in
  let sx := np_sin x in
  p1 ← params !! 1%nat;
  let dd := add_sa (of_int 1) (mul_aa (mul_sa (fmul p1 p1) sx) sx) in
  let dd := mul_aa dd dd in
  p0 ← params !! 0%nat;
  let c := fmul (fmul (fmul (fmul (fmul (of_int (-2)) math_pi) p0) p1) p1) p2 in
  Some (div_aa (mul_aa (mul_sa c sx) (np_cos x)) dd).

(** *** Two-dimensional arrays *)

(** An [N x ncols] numpy array, stored by rows. *)
Record ndarray2 : Type := Ndarray2 { ncols : nat; rows : list (list F) }.

(** What [numpy.ndarray(shape)] hands out is uninitialised memory: the cell
    at row [i], column [j] holds [uninitialized i j], about which nothing is
    known. *)
Variable uninitialized : nat -> nat -> F.

(** [numpy.ndarray( ( Tools.length( xdata ), np ) )]: one row per sample. *)
Definition numpy_ndarray (xdata : list F) (np : nat) : ndarray2 :=
  Ndarray2 np (imap (fun i _ => uninitialized i <$> seq 0 np) xdata).

(** [partial[:,k] = v].  numpy raises [IndexError] when [k] is not a column
    of the array, and [ValueError] when the length of the value is not the
    number of rows.  (A value of one element would be broadcast to the whole
    column; the values [basePartial] writes have one entry per sample, as
    many as [partial] has rows, so this does not arise.) *)
Definition set_column (k : nat) (v : list F) (m : ndarray2) : option ndarray2 :=
  if decide (k < ncols m)%nat then
    if decide (length v = length (rows m)) then
      Some (Ndarray2 (ncols m) (zip_with (fun row c => <[k := c]> row) (rows m) v))
    else None
  else None.

(** Column [k] of a matrix, [m[:,k]]. *)
Definition column (k : nat) (m : ndarray2) : option (list F) :=
  mapM (fun row => row !! k) (rows m).

(** The intermediate arrays of [basePartial] that the closures of [parts]
    capture. *)
Record partial_locals : Type := {
  l_xdata : list F;
  l_p0 : F;
  l_p1 : F;
  l_s2 : list F;
  l_dd : list F;
  l_d2 : list F;
  l_p3 : list F
}.

(** The dictionary [parts]: calling the closure stored under [kp].  A key
    outside 0..3 is a [KeyError]. *)
Definition parts (c : partial_locals) (kp : Z) : option (list F) :=
  match kp with
  | 0%Z => Some (l_dd c)
  | 1%Z => Some (mul_aa (mul_sa (fmul (fmul (of_int (-2)) (l_p0 c)) (l_p1 c)) (l_s2 c)) (l_d2 c))
  | 2%Z => Some (mul_aa (mul_sa math_pi (l_xdata c)) (l_p3 c))
  | 3%Z => Some (l_p3 c)
  | _ => None
  end.

(** [for k,kp in enumerate( parlist ) : partial[:,k] = parts[kp]()], from
    position [k] on. *)
Fixpoint fill_columns (c : partial_locals) (k : nat) (parlist : list Z)
    (partial : ndarray2) : option ndarray2 :=
  match parlist with
  | [] => Some partial
  | kp :: rest =>
      v ← parts c kp;
      partial' ← set_column k v partial;
      fill_columns c (S k) rest partial'
  end.

(** [range( n )]. *)
Definition range (n : nat) : list Z := Z.of_nat <$> seq 0 n.

(** [basePartial]; [parlist = None] is the Python default. *)
Definition basePartial {U} (self : PositiveEtalonModel U) (xdata params : list F)
    (parlist : option (list Z)) : option ndarray2 :=
  let np := match parlist with None => npbase self | Some l => length l end in
  let partial := numpy_ndarray xdata np in
  p2 ← params !! 2%nat;
  p3 ← params !! 3%nat;
  let x := phase xdata p2 p3 in
  let sx := np_sin x in
  let s2 := mul_aa sx sx in
  p1 ← params !! 1%nat;
  let dd := div_sa (of_int 1) (add_sa (of_int 1) (mul_sa (fmul p1 p1) s2)) in
  let d2 := mul_aa dd dd in
  p0 ← params !! 0%nat;
  let p3 :=
    mul_aa (mul_aa (mul_sa (fmul (fmul (fmul (of_int (-2)) p0) p1) p1) sx) (np_cos x)) d2 in
  let c := {| l_xdata := xdata; l_p0 := p0; l_p1 := p1;
              l_s2 := s2; l_dd := dd; l_d2 := d2; l_p3 := p3 |} in
  let parlist := match parlist with None => range (npmax self) | Some l => l end in
  fill_columns c 0 parlist partial.

(** *** One sample at a time *)

(** The three methods work on whole arrays; the functions below are the same
    expressions for a single sample [x], with the parameters
    [p0 .. p3 = params[0] .. params[3]].  The lemmas [baseResult_pointwise],
    [baseDerivative_pointwise] and [basePartial_pointwise] relate them to the
    methods. *)
Definition phase_at (p2 p3 x : F) : F := fadd (fmul (fmul math_pi x) p2) p3.

Definition value_at (p0 p1 p2 p3 x : F) : F :=
  let sx := fsin (phase_at p2 p3 x) in
  fdiv p0 (fadd (of_int 1) (fmul (fmul (fmul p1 p1) sx) sx)).

Definition derivative_at (p0 p1 p2 p3 x : F) : F :=
  let sx := fsin (phase_at p2 p3 x) in
  let dd := fadd (of_int 1) (fmul (fmul (fmul p1 p1) sx) sx) in
  let c := fmul (fmul (fmul (fmul (fmul (of_int (-2)) math_pi) p0) p1) p1) p2 in
  fdiv (fmul (fmul c sx) (fcos (phase_at p2 p3 x))) (fmul dd dd).

(** The entry of a row of [partial] written for the key [kp]; keys 0 to 3
    are the ones [parts] has, any other key reads as 3 here. *)
Definition partial_at (p0 p1 p2 p3 : F) (kp : Z) (x : F) : F :=
  let sx := fsin (phase_at p2 p3 x) in
  let s2 := fmul sx sx in
  let dd := fdiv (of_int 1) (fadd (of_int 1) (fmul (fmul p1 p1) s2)) in
  let d2 := fmul dd dd in
  let p3t :=
    fmul (fmul (fmul (fmul (fmul (fmul (of_int (-2)) p0) p1) p1) sx)
            (fcos (phase_at p2 p3 x))) d2 in
  match kp with
  | 0%Z => dd
  | 1%Z => fmul (fmul (fmul (fmul (of_int (-2)) p0) p1) s2) d2
  | 2%Z => fmul (fmul math_pi x) p3t
  | _ => p3t
  end.

(** *** Units *)

(** The dimensionless unit is [units.Unit] of the empty string, the angle
    unit is [units.Unit( units.si.rad )]. *)
Definition dimensionless {U} `{UnitOps U} : U := units_Unit_str EmptyString.
Definition radians {U} `{UnitOps U} : U := units_Unit units_si_rad.

(** [baseParameterUnit]. *)
Definition baseParameterUnit {U} `{UnitOps U} (self : PositiveEtalonModel U) (k : Z) : U :=
  if decide (k = 0%Z) then yUnit self
  else if decide (k = 1%Z) then units_Unit_str EmptyString
  else if decide (k = 2%Z) then unit_div (units_Unit units_si_rad) (xUnit self)
  else if decide (k = 3%Z) then units_Unit units_si_rad
  else yUnit self.

(** [baseName]. *)
Definition baseName : string :=
  "Etalon: f( x:p ) = p_0 / ( 1 + p_1^2 * sin^2( PI * x * p_2 + p_3 ) )".

(** ** Object-level model: numpy arrays as objects of a store *)

(** The value-level model cannot say whether a call changes its arguments.
    Here the arrays live in a store, every numpy operation allocates its
    result, and the two statements of the source that write in place
    ([dd *= dd] and [partial[:,k] = ...]) update the store. *)

(** The objects the three methods touch: one-dimensional arrays of floats
    (the samples, the parameter vector and every intermediate array),
    two-dimensional arrays, lists of integers (a selection list) and the
    model instance. *)
Inductive object (U : Type) : Type :=
| OArray (v : list F)
| OMatrix (m : ndarray2)
| OIndices (l : list Z)
| OModel (self : PositiveEtalonModel U).
Arguments OArray {U} _.
Arguments OMatrix {U} _.
Arguments OIndices {U} _.
Arguments OModel {U} _.

Section Store.
Context {U : Type}.

(** A computation on the store: it returns a value or raises, and leaves a
    store either way. *)
Definition M (T : Type) : Type := gmap positive (object U) -> result T * gmap positive (object U).

Definition ret {T} (t : T) : M T := fun h => (Ok t, h).
Definition raise {T} (e : exn) : M T := fun h => (Raise e, h).
Definition bind {T T'} (c : M T) (k : T -> M T') : M T' :=
  fun h => match c h with
           | (Ok t, h') => k t h'
           | (Raise e, h') => (Raise e, h')
           end.

Notation "x <~ c ;; k" := (bind c (fun x => k))
  (at level 100, c at next level, right associativity).

(** Allocation of a new object. *)
Definition new (o : object U) : M loc :=
  fun h => let l := fresh (dom h) in (Ok l, <[l := o]> h).

(** Overwriting the content of an existing object. *)
Definition write (l : loc) (o : object U) : M unit :=
  fun h => (Ok tt, <[l := o]> h).

Definition read_array (l : loc) : M (list F) :=
  fun h => match h !! l with
           | Some (OArray v) => (Ok v, h)
           | _ => (Raise TypeError, h)
           end.

Definition read_matrix (l : loc) : M ndarray2 :=
  fun h => match h !! l with
           | Some (OMatrix m) => (Ok m, h)
           | _ => (Raise TypeError, h)
           end.

Definition read_indices (l : loc) : M (list Z) :=
  fun h => match h !! l with
           | Some (OIndices L) => (Ok L, h)
           | _ => (Raise TypeError, h)
           end.

Definition read_self (l : loc) : M (PositiveEtalonModel U) :=
  fun h => match h !! l with
           | Some (OModel self) => (Ok self, h)
           | _ => (Raise TypeError, h)
           end.

(** [a[k]] on a sequence of floats. *)
Definition getitem (a : loc) (k : nat) : M F :=
  v <~ read_array a ;;
  match v !! k with
  | Some t => ret t
  | None => raise IndexError
  end.

(** A numpy operation with one array operand: the result is a new array. *)
Definition unop (f : list F -> list F) (a : loc) : M loc :=
  v <~ read_array a ;; new (OArray (f v)).

(** A numpy operation with two array operands: the result is a new array. *)
Definition binop (f : list F -> list F -> list F) (a b : loc) : M loc :=
  v <~ read_array a ;; w <~ read_array b ;; new (OArray (f v w)).

(** [a *= b]: the product is stored in the object [a] itself. *)
Definition imul (a b : loc) : M unit :=
  v <~ read_array a ;; w <~ read_array b ;; write a (OArray (mul_aa v w)).

(** [partial[:,k] = v]: [IndexError] for a column that is not there,
    [ValueError] for a value of the wrong length. *)
Definition setitem_column (partial : loc) (k : nat) (v : loc) : M unit :=
  w <~ read_array v ;;
  m <~ read_matrix partial ;;
  match set_column k w m with
  | Some m' => write partial (OMatrix m')
  | None => if decide (k < ncols m)%nat then raise ValueError else raise IndexError
  end.

(** [x = math.pi * xdata * params[2] + params[3]]. *)
Definition phase_obj (xdata params : loc) : M loc :=
  t1 <~ unop (mul_sa math_pi) xdata ;;
  p2 <~ getitem params 2 ;;
  t2 <~ unop (fun v => mul_as v p2) t1 ;;
  p3 <~ getitem params 3 ;;
  unop (fun v => add_as v p3) t2.

(** [baseResult( self, xdata, params )]. *)
Definition baseResult_obj (self xdata params : loc) : M loc :=
  x <~ phase_obj xdata params ;;
  sx <~ unop np_sin x ;;
  p0 <~ getitem params 0 ;;
  p1 <~ getitem params 1 ;;
  p1' <~ getitem params 1 ;;
  t1 <~ unop (mul_sa (fmul p1 p1')) sx ;;
  t2 <~ binop mul_aa t1 sx ;;
  t3 <~ unop (add_sa (of_int 1)) t2 ;;
  unop (div_sa p0) t3.

(** [baseDerivative( self, xdata, params )]. *)
Definition baseDerivative_obj (self xdata params : loc) : M loc :=
  x <~ phase_obj xdata params ;;
  sx <~ unop np_sin x ;;
  p1 <~ getitem params 1 ;;
  p1' <~ getitem params 1 ;;
  t1 <~ unop (mul_sa (fmul p1 p1')) sx ;;
  t2 <~ binop mul_aa t1 sx ;;
  dd <~ unop (add_sa (of_int 1)) t2 ;;
  _ <~ imul dd dd ;;
  p0 <~ getitem params 0 ;;
  q1 <~ getitem params 1 ;;
  q1' <~ getitem params 1 ;;
  p2 <~ getitem params 2 ;;
  t3 <~ unop (mul_sa (fmul (fmul (fmul (fmul (fmul (of_int (-2)) math_pi) p0) q1) q1') p2)) sx ;;
  cx <~ unop np_cos x ;;
  t4 <~ binop mul_aa t3 cx ;;
  binop div_aa t4 dd.

(** The variables of [basePartial] that the closures of [parts] refer to. *)
Record partial_env : Type := {
  e_xdata : loc;
  e_params : loc;
  e_s2 : loc;
  e_dd : loc;
  e_d2 : loc;
  e_p3 : loc
}.

(** [parts[kp]()]: the lookup in the dictionary and the call of the closure
    found there. *)
Definition parts_obj (e : partial_env) (kp : Z) : M loc :=
  match kp with
  | 0%Z => ret (e_dd e)
  | 1%Z =>
      p0 <~ getitem (e_params e) 0 ;;
      p1 <~ getitem (e_params e) 1 ;;
      t <~ unop (mul_sa (fmul (fmul (of_int (-2)) p0) p1)) (e_s2 e) ;;
      binop mul_aa t (e_d2 e)
  | 2%Z =>
      t <~ unop (mul_sa math_pi) (e_xdata e) ;;
      binop mul_aa t (e_p3 e)
  | 3%Z => ret (e_p3 e)
  | _ => raise KeyError
  end.

(** The loop over [enumerate( parlist )]. *)
Fixpoint fill_columns_obj (e : partial_env) (partial : loc) (k : nat)
    (parlist : list Z) : M unit :=
  match parlist with
  | [] => ret tt
  | kp :: rest =>
      v <~ parts_obj e kp ;;
      _ <~ setitem_column partial k v ;;
      fill_columns_obj e partial (S k) rest
  end.

(** [basePartial( self, xdata, params, parlist )]; the selection list is an
    object of the store, or absent. *)
Definition basePartial_obj (self xdata params : loc) (parlist : option loc) : M loc :=
  np <~ match parlist with
        | None => me <~ read_self self ;; ret (npbase me)
        | Some pl => L <~ read_indices pl ;; ret (length L)
        end ;;
  xs <~ read_array xdata ;;
  partial <~ new (OMatrix (numpy_ndarray xs np)) ;;
  x <~ phase_obj xdata params ;;
  sx <~ unop np_sin x ;;
  s2 <~ binop mul_aa sx sx ;;
  p1 <~ getitem params 1 ;;
  p1' <~ getitem params 1 ;;
  t1 <~ unop (mul_sa (fmul p1 p1')) s2 ;;
  t2 <~ unop (add_sa (of_int 1)) t1 ;;
  dd <~ unop (div_sa (of_int 1)) t2 ;;
  d2 <~ binop mul_aa dd dd ;;
  p0 <~ getitem params 0 ;;
  q1 <~ getitem params 1 ;;
  q1' <~ getitem params 1 ;;
  t3 <~ unop (mul_sa (fmul (fmul (fmul (of_int (-2)) p0) q1) q1')) sx ;;
  cx <~ unop np_cos x ;;
  t4 <~ binop mul_aa t3 cx ;;
  p3 <~ binop mul_aa t4 d2 ;;
  let e := {| e_xdata := xdata; e_params := params; e_s2 := s2;
              e_dd := dd; e_d2 := d2; e_p3 := p3 |} in
  L <~ match parlist with
       | None => me <~ read_self self ;; ret (range (npmax me))
       | Some pl => read_indices pl
       end ;;
  _ <~ fill_columns_obj e partial 0 L ;;
  ret partial.

End Store.

End Model.

Arguments ndarray2 : clear implicits.
Arguments partial_locals : clear implicits.
Arguments object : clear implicits.
Arguments OArray {F U} _.
Arguments OMatrix {F U} _.
Arguments OIndices {F U} _.
Arguments OModel {F U} _.
Arguments M : clear implicits.

(** The store. *)
Abbreviation store F U := (gmap positive (object F U)).

(** [c] run on the store [h] ends in a result and a store that satisfy
    [Q]. *)
Definition wp {F U T} (c : M F U T) (h : store F U)
    (Q : result T -> store F U -> Prop) : Prop :=
  Q (c h).1 (c h).2.

(** A call that started in the store [h] and ended with the result [r] in
    the store [h'] has left its arguments alone when every object of [h]
    (the samples, the parameter vector, the selection list, the instance
    and whatever else there is) is in [h'] with the content it had, and the
    object returned, if any, is one that [h] did not have. *)
Definition unchanged_and_fresh {F U} (h : store F U) (r : result loc)
    (h' : store F U) : Prop :=
  (forall l o, h !! l = Some o -> h' !! l = Some o)
  /\ forall out, r = Ok out -> h !! out = None /\ is_Some (h' !! out).

(** What a call that started in the store [h0] may end with: every object
    of [h0] is still there, unchanged; a returned object is not one of
    [h0], and its content is the one the value-level model gives ([spec]
    holds of it); an exception is one the value-level model has too
    ([spec] holds of [None]). *)
Definition agrees {F U A} (inj : A -> object F U) (h0 : store F U)
    (spec : option A -> Prop) (r : result loc) (h' : store F U) : Prop :=
  h0 ⊆ h'
  /\ match r with
     | Ok out => (out ∉ dom h0) /\ exists a, h' !! out = Some (inj a) /\ spec (Some a)
     | Raise _ => spec None
     end.

(** A write to the object [a] of the store [h] gives a store [h'] that
    differs from [h] at [a] only; a store that lies in [h] and does not have
    [a] lies in [h'] as well. *)
Definition updated_at {F U} (h : store F U) (a : loc) (o : object F U)
    (h' : store F U) : Prop :=
  (forall x o', a <> x -> h !! x = Some o' -> h' !! x = Some o')
  /\ h' !! a = Some o
  /\ (forall h0, h0 ⊆ h -> a ∉ dom h0 -> h0 ⊆ h').

(** Units as the expressions that build them. *)
Inductive unit_expr : Type :=
| UStr (s : string)
| URad
| UQuot (a b : unit_expr).

#[export] Instance unit_expr_ops : UnitOps unit_expr := {|
  units_Unit_str := UStr;
  units_Unit := fun u => u;
  units_si_rad := URad;
  unit_div := UQuot
|}.

(** An instance with the four parameters the constructor declares, none of
    them fixed, and no units. *)
Definition self4 : PositiveEtalonModel unit :=
  {| npbase := 4; npmax := 4; xUnit := tt; yUnit := tt |}.

(** ** The real-number reading *)

#[export] Instance R_ops : Float64Ops R := {|
  fadd := Rplus;
  fmul := Rmult;
  fdiv := Rdiv;
  fsin := sin;
  fcos := cos;
  math_pi := PI;
  of_int := IZR
|}.

(** A store with two samples at 1, the parameters [1, 30, 1, 0] at 2, the
    instance at 3 and the selection list [3, 0] at 4. *)
Definition example_store : store R unit :=
  <[4%positive := OIndices [3; 0]%Z]>
    (<[3%positive := OModel self4]>
       (<[2%positive := OArray [1%R; 30%R; 1%R; 0%R]]>
          (<[1%positive := OArray [0%R; 1%R]]> ∅))).

(** ** The binary64 reading *)

(** The conversion of a Python integer to a float: the nearest double. *)
Definition float_of_int (z : Z) : float :=
  SF2Prim (binary_normalize prec emax z 0 false).

(** numpy's arithmetic on doubles.  [numpy.sin] and [numpy.cos] come from
    the platform's mathematical library and cannot be computed here; they
    are parameters of the reading. *)
Definition binary64_ops (libm_sin libm_cos : float -> float) : Float64Ops float := {|
  fadd := PrimFloat.add;
  fmul := PrimFloat.mul;
  fdiv := PrimFloat.div;
  fsin := libm_sin;
  fcos := libm_cos;
  math_pi := 0x1.921fb54442d18p+1%float;
  of_int := float_of_int
|}.

(** Whether the bits that a right shift of a mantissa has dropped were not
    all zero (the round and sticky bits of the shift record). *)
Definition inexact (mrs : shr_record) : bool := shr_r mrs || shr_s mrs.

(** The doubles that are neither NaN nor negative: a zero of either sign,
    a positive finite number, plus infinity. *)
Definition not_negative (t : spec_float) : Prop :=
  (exists b, t = S754_zero b) \/ t = S754_infinity false
  \/ exists m e, t = S754_finite false m e.

(** The formulas of the specification, over the reals. *)
Module Formula.
Definition phase_arg (p2 p3 x : R) : R := (PI * x * p2 + p3)%R.
Definition denom (p1 p2 p3 x : R) : R :=
  (1 + p1 ^ 2 * (sin (phase_arg p2 p3 x)) ^ 2)%R.
Definition value (p0 p1 p2 p3 x : R) : R := (p0 / denom p1 p2 p3 x)%R.
Definition derivative (p0 p1 p2 p3 x : R) : R :=
  (- 2 * PI * p0 * p1 ^ 2 * p2 * sin (phase_arg p2 p3 x) * cos (phase_arg p2 p3 x)
   / (denom p1 p2 p3 x) ^ 2)%R.
Definition p3term (p0 p1 p2 p3 x : R) : R :=
  (- 2 * p0 * p1 ^ 2 * sin (phase_arg p2 p3 x) * cos (phase_arg p2 p3 x)
   / (denom p1 p2 p3 x) ^ 2)%R.
Definition d_p0 (p0 p1 p2 p3 x : R) : R := (1 / denom p1 p2 p3 x)%R.
Definition d_p1 (p0 p1 p2 p3 x : R) : R :=
  (- 2 * p0 * p1 * (sin (phase_arg p2 p3 x)) ^ 2 / (denom p1 p2 p3 x) ^ 2)%R.
Definition d_p2 (p0 p1 p2 p3 x : R) : R := (PI * x * p3term p0 p1 p2 p3 x)%R.
Definition d_p3 (p0 p1 p2 p3 x : R) : R := p3term p0 p1 p2 p3 x.
End Formula.

(** * Properties *)

(** ** Lists *)

Lemma zip_with_fmap_same {A B C D} (f : B -> C -> D) (g : A -> B) (h : A -> C)
    (l : list A) :
  zip_with f (g <$> l) (h <$> l) = (fun a => f (g a) (h a)) <$> l.
Proof. induction l as [|a l IH]; csimpl; [done | by rewrite IH]. Qed.

Lemma zip_with_imap_fmap {A B C D} (f : B -> C -> D) (g : nat -> A -> B)
    (h : A -> C) (l : list A) :
  zip_with f (imap g l) (h <$> l) = imap (fun i a => f (g i a) (h a)) l.
Proof.
  revert g. induction l as [|a l IH]; intros g; csimpl; [done |].
  f_equal. apply IH.
Qed.

Lemma mapM_lookup_fmap {A B} (f : A -> list B) (k : nat) (l : list A) (g : A -> B) :
  (forall a, f a !! k = Some (g a)) ->
  mapM (fun row => row !! k) (f <$> l) = Some (g <$> l).
Proof.
  intros Hk. apply mapM_Some. induction l as [|a l IH]; csimpl; constructor; auto.
Qed.

(** ** The methods, one sample at a time *)

Section Pointwise.
Context {F : Type} `{Float64Ops F}.

Lemma phase_pointwise (xdata : list F) (p2 p3 : F) :
  phase xdata p2 p3 = phase_at p2 p3 <$> xdata.
Proof. unfold phase, add_as, mul_as, mul_sa. by rewrite <- !list_fmap_compose. Qed.

Lemma baseResult_pointwise (p0 p1 p2 p3 : F) (xdata : list F) :
  baseResult xdata [p0; p1; p2; p3] = Some (value_at p0 p1 p2 p3 <$> xdata).
Proof.
  unfold baseResult; simpl. rewrite phase_pointwise. f_equal.
  unfold div_sa, add_sa, mul_aa, mul_sa, np_sin.
  rewrite <- !list_fmap_compose, zip_with_fmap_same, <- !list_fmap_compose.
  by apply list_fmap_ext.
Qed.

Lemma baseDerivative_pointwise (p0 p1 p2 p3 : F) (xdata : list F) :
  baseDerivative xdata [p0; p1; p2; p3] = Some (derivative_at p0 p1 p2 p3 <$> xdata).
Proof.
  unfold baseDerivative; simpl. rewrite phase_pointwise. f_equal.
  unfold div_aa, add_sa, mul_aa, mul_sa, np_sin, np_cos.
  repeat first [ rewrite <- list_fmap_compose | rewrite zip_with_fmap_same ].
  by apply list_fmap_ext.
Qed.

Lemma parts_pointwise (p0 p1 p2 p3 : F) (xdata : list F) (kp : Z) :
  let x := phase xdata p2 p3 in
  let sx := np_sin x in
  let s2 := mul_aa sx sx in
  let dd := div_sa (of_int 1) (add_sa (of_int 1) (mul_sa (fmul p1 p1) s2)) in
  let d2 := mul_aa dd dd in
  let p3t :=
    mul_aa (mul_aa (mul_sa (fmul (fmul (fmul (of_int (-2)) p0) p1) p1) sx) (np_cos x)) d2 in
  (0 <= kp <= 3)%Z ->
  parts {| l_xdata := xdata; l_p0 := p0; l_p1 := p1;
           l_s2 := s2; l_dd := dd; l_d2 := d2; l_p3 := p3t |} kp
  = Some (partial_at p0 p1 p2 p3 kp <$> xdata).
Proof.
  intros x sx s2 dd d2 p3t Hkp. subst x sx s2 dd d2 p3t.
  rewrite phase_pointwise.
  assert (kp = 0 \/ kp = 1 \/ kp = 2 \/ kp = 3)%Z as [-> | [-> | [-> | ->]]] by lia;
    simpl; f_equal;
    unfold div_sa, add_sa, mul_aa, mul_sa, np_sin, np_cos;
    repeat first [ rewrite <- list_fmap_compose | rewrite zip_with_fmap_same
                 | rewrite zip_with_fmap_r ];
    try rewrite zip_with_diag;
    repeat first [ rewrite <- list_fmap_compose | rewrite zip_with_fmap_same ];
    by apply list_fmap_ext.
Qed.

Lemma fill_columns_pointwise (c : partial_locals F) (xs : list F) (pa : Z -> F -> F)
    (n : nat) :
  (forall kp, (0 <= kp <= 3)%Z -> parts c kp = Some (pa kp <$> xs)) ->
  forall (L pre : list Z) (g : nat -> F -> list F),
    Forall (fun kp => (0 <= kp <= 3)%Z) L ->
    (forall i x, length (g i x) = length L) ->
    n = (length pre + length L)%nat ->
    fill_columns c (length pre) L
      (Ndarray2 n (imap (fun i x => ((fun kp => pa kp x) <$> pre) ++ g i x) xs))
    = Some (Ndarray2 n ((fun x => (fun kp => pa kp x) <$> (pre ++ L)) <$> xs)).
Proof.
  intros Hparts L. induction L as [|kp L IH]; intros pre g HL Hg Hn.
  - simpl. do 2 f_equal. rewrite <- (imap_const _ xs). apply imap_ext.
    intros i x _. simpl. specialize (Hg i x).
    destruct (g i x); [by rewrite !app_nil_r | discriminate].
  - inversion HL as [|? ? Hkp HL']; subst. simpl.
    rewrite (Hparts kp Hkp). simpl. unfold set_column. simpl.
    rewrite decide_True by lia.
    rewrite decide_True by (by rewrite length_fmap, length_imap).
    simpl. rewrite zip_with_imap_fmap.
    specialize (IH (pre ++ [kp]) (fun i x => tail (g i x)) HL').
    rewrite length_app in IH. simpl in IH.
    replace (length pre + 1)%nat with (S (length pre)) in IH by lia.
    rewrite <- (assoc_L (++)) in IH. simpl in IH. rewrite <- IH.
    + do 2 f_equal. apply imap_ext. intros i x _. simpl.
      specialize (Hg i x). destruct (g i x) as [|y r]; [discriminate |].
      rewrite <- (Nat.add_0_r (length pre)) at 1.
      rewrite <- (length_fmap (fun kp0 => pa kp0 x) pre) at 1.
      rewrite insert_app_r. simpl.
      rewrite fmap_app, <- (assoc_L (++)). done.
    + intros i x. specialize (Hg i x). destruct (g i x); simpl in *; lia.
    + simpl; lia.
Qed.

(** With a selection list of keys from 0 to 3, the row of [partial] for the
    sample [x] holds the entries for the listed keys, in the order of the
    list, and nothing of the uninitialised memory is left. *)
Lemma basePartial_pointwise {U} (uninit : nat -> nat -> F)
    (self : PositiveEtalonModel U) (p0 p1 p2 p3 : F) (xdata : list F) (L : list Z) :
  Forall (fun kp => (0 <= kp <= 3)%Z) L ->
  basePartial uninit self xdata [p0; p1; p2; p3] (Some L)
  = Some (Ndarray2 (length L)
            ((fun x => (fun kp => partial_at p0 p1 p2 p3 kp x) <$> L) <$> xdata)).
Proof.
  intros HL. unfold basePartial, numpy_ndarray; simpl.
  pose proof (fill_columns_pointwise _ xdata (partial_at p0 p1 p2 p3) (length L)
           (fun kp Hkp => parts_pointwise p0 p1 p2 p3 xdata kp Hkp) L []
           (fun i _ => uninit i <$> seq 0 (length L)) HL) as Hfill.
  simpl in Hfill. apply Hfill; [| done].
  intros i x. by rewrite length_fmap, length_seq.
Qed.

(** Without a selection list, and with the four parameters the constructor
    declares, [basePartial] does what it does for the list [0, 1, 2, 3]. *)
Lemma basePartial_default {U} (uninit : nat -> nat -> F)
    (self : PositiveEtalonModel U) (xdata params : list F) :
  npbase self = 4%nat -> npmax self = 4%nat ->
  basePartial uninit self xdata params None
  = basePartial uninit self xdata params (Some [0; 1; 2; 3]%Z).
Proof. intros Hb Hm. unfold basePartial. by rewrite Hb, Hm. Qed.

(** The default call needs them: on an instance with a fixed parameter
    ([npbase = 3], [npmax = 4]) the loop reaches a column that [partial]
    does not have, and the call ends in an [IndexError].  The framework
    passes a selection list to such an instance. *)
Lemma basePartial_default_fixed {U} (uninit : nat -> nat -> F)
    (self : PositiveEtalonModel U) (p0 p1 p2 p3 : F) (xdata : list F) :
  npbase self = 3%nat -> npmax self = 4%nat ->
  basePartial uninit self xdata [p0; p1; p2; p3] None = None.
Proof.
  intros Hb Hm. unfold basePartial. rewrite Hb, Hm. simpl.
  unfold set_column; simpl.
  repeat (rewrite decide_True
            by (repeat rewrite ?length_zip_with, ?length_fmap, ?length_imap;
                unfold phase, add_as, mul_as, mul_sa, mul_aa, div_sa, add_sa,
                  np_sin, np_cos;
                repeat rewrite ?length_zip_with, ?length_fmap, ?length_imap; lia);
          simpl).
  reflexivity.
Qed.

Lemma column_pointwise (n : nat) (pa : Z -> F -> F) (L : list Z) (xdata : list F)
    (k : nat) (kp : Z) :
  L !! k = Some kp ->
  column k (Ndarray2 n ((fun x => (fun kp => pa kp x) <$> L) <$> xdata))
  = Some (pa kp <$> xdata).
Proof.
  intros Hk. unfold column; simpl. apply mapM_lookup_fmap.
  intros x. by rewrite list_lookup_fmap, Hk.
Qed.

(** C4: with a selection list [L] of keys from 0 to 3, column [k] of the
    result is the column the default call has for the parameter [L[k]];
    the default call has the four columns in the order 0, 1, 2, 3; and for
    the list [3, 0] the result has two columns, the default column 3
    followed by the default column 0. *)
Theorem C4_selection_order {U} (uninit : nat -> nat -> F)
    (self : PositiveEtalonModel U) (p0 p1 p2 p3 : F) (xdata : list F) (L : list Z)
    (HL : Forall (fun kp => (0 <= kp <= 3)%Z) L)
    (Hnpbase : npbase self = 4%nat) (Hnpmax : npmax self = 4%nat) :
  exists natural selected two : ndarray2 F,
    basePartial uninit self xdata [p0; p1; p2; p3] None = Some natural
    /\ ncols natural = 4%nat
    /\ (forall j, (j < 4)%nat ->
          column j natural = Some (partial_at p0 p1 p2 p3 (Z.of_nat j) <$> xdata))
    /\ basePartial uninit self xdata [p0; p1; p2; p3] (Some L) = Some selected
    /\ ncols selected = length L
    /\ (forall k kp, L !! k = Some kp ->
          column k selected = column (Z.to_nat kp) natural)
    /\ basePartial uninit self xdata [p0; p1; p2; p3] (Some [3; 0]%Z) = Some two
    /\ ncols two = 2%nat
    /\ column 0 two = column 3 natural
    /\ column 1 two = column 0 natural.
Proof.
  assert (Forall (fun kp => (0 <= kp <= 3)%Z) [0; 1; 2; 3]%Z) as H4
    by (repeat constructor; lia).
  assert (Forall (fun kp => (0 <= kp <= 3)%Z) [3; 0]%Z) as H2
    by (repeat constructor; lia).
  assert (forall j, (j < 4)%nat -> [0; 1; 2; 3]%Z !! j = Some (Z.of_nat j)) as Hnat.
  { intros j Hj. do 4 (destruct j as [|j]; [done |]). lia. }
  eexists _, _, _.
  rewrite (basePartial_default uninit self xdata _ Hnpbase Hnpmax).
  rewrite !basePartial_pointwise by done.
  repeat split.
  - intros j Hj. by apply column_pointwise, Hnat.
  - intros k kp Hk.
    assert (0 <= kp <= 3)%Z as Hkp by (eapply Forall_lookup_1 in HL; eauto).
    rewrite (column_pointwise _ _ L _ k kp Hk).
    rewrite (column_pointwise _ _ [0; 1; 2; 3]%Z _ (Z.to_nat kp) kp); [done |].
    rewrite Hnat by lia. f_equal. lia.
  - by rewrite (column_pointwise _ _ [3; 0]%Z _ 0 3%Z),
      (column_pointwise _ _ [0; 1; 2; 3]%Z _ 3 3%Z).
  - by rewrite (column_pointwise _ _ [3; 0]%Z _ 1 0%Z),
      (column_pointwise _ _ [0; 1; 2; 3]%Z _ 0 0%Z).
Qed.
End Pointwise.

(** ** The real-number reading of the three methods *)

Lemma denom_ge_1 (p1 s : R) : (1 <= 1 + p1 ^ 2 * s ^ 2)%R.
Proof.
  assert (0 <= p1 ^ 2 * s ^ 2)%R; [| lra].
  apply Rmult_le_pos; apply pow2_ge_0.
Qed.

Lemma denom_neq_0 (p1 p2 p3 x : R) : Formula.denom p1 p2 p3 x <> 0%R.
Proof. unfold Formula.denom. pose proof (denom_ge_1 p1 (sin (Formula.phase_arg p2 p3 x))). lra. Qed.

Lemma value_at_formula (p0 p1 p2 p3 x : R) :
  value_at p0 p1 p2 p3 x = Formula.value p0 p1 p2 p3 x.
Proof.
  unfold value_at, Formula.value, Formula.denom, Formula.phase_arg, phase_at; simpl.
  f_equal. ring.
Qed.

Lemma derivative_at_formula (p0 p1 p2 p3 x : R) :
  derivative_at p0 p1 p2 p3 x = Formula.derivative p0 p1 p2 p3 x.
Proof.
  unfold derivative_at, Formula.derivative, Formula.denom, Formula.phase_arg, phase_at; simpl.
  unfold Rdiv. f_equal; [ring | f_equal; ring].
Qed.

Lemma partial_at_formula (p0 p1 p2 p3 x : R) :
  partial_at p0 p1 p2 p3 0 x = Formula.d_p0 p0 p1 p2 p3 x /\
  partial_at p0 p1 p2 p3 1 x = Formula.d_p1 p0 p1 p2 p3 x /\
  partial_at p0 p1 p2 p3 2 x = Formula.d_p2 p0 p1 p2 p3 x /\
  partial_at p0 p1 p2 p3 3 x = Formula.d_p3 p0 p1 p2 p3 x.
Proof.
  pose proof (denom_neq_0 p1 p2 p3 x) as Hd.
  unfold partial_at, Formula.d_p0, Formula.d_p1, Formula.d_p2, Formula.d_p3,
    Formula.p3term; simpl.
  unfold Formula.denom, Formula.phase_arg, phase_at in *; simpl.
  repeat split; field; intros Hz; apply Hd; rewrite <- Hz; ring.
Qed.

Lemma baseResult_formula (p0 p1 p2 p3 : R) (xdata : list R) :
  baseResult xdata [p0; p1; p2; p3]
  = Some ((fun x => (p0 / (1 + p1 ^ 2 * (sin (PI * x * p2 + p3)) ^ 2))%R) <$> xdata).
Proof.
  rewrite baseResult_pointwise. f_equal. apply list_fmap_ext; intros i x _.
  apply value_at_formula.
Qed.

Lemma quotient_bounded (p0 d : R) : (1 <= d)%R -> (0 <= Rabs (p0 / d) <= Rabs p0)%R.
Proof.
  intros Hd. split; [apply Rabs_pos |].
  unfold Rdiv. rewrite Rabs_mult, Rabs_inv, (Rabs_pos_eq d) by lra.
  rewrite <- (Rmult_1_r (Rabs p0)) at 2.
  apply Rmult_le_compat_l; [apply Rabs_pos |].
  rewrite <- Rinv_1. apply Rinv_le_contravar; lra.
Qed.

(** C1: on a four-element parameter vector, [baseResult] is, elementwise,
    p0 / (1 + p1^2 * sin^2(pi * x * p2 + p3)), that is p0 / denom with
    phase_arg = pi * x * p2 + p3. *)
Theorem C1_value_formula (p0 p1 p2 p3 : R) (xdata : list R) :
  baseResult xdata [p0; p1; p2; p3]
  = Some ((fun x => (p0 / (1 + p1 ^ 2 * (sin (PI * x * p2 + p3)) ^ 2))%R) <$> xdata).
Proof. apply baseResult_formula. Qed.

(** C2: [baseDerivative] is, elementwise, the closed form
    -2 pi p0 p1^2 p2 sin(phase_arg) cos(phase_arg) / denom^2. *)
Theorem C2_derivative_formula (p0 p1 p2 p3 : R) (xdata : list R) :
  baseDerivative xdata [p0; p1; p2; p3]
  = Some ((fun x =>
             (- 2 * PI * p0 * p1 ^ 2 * p2
              * sin (PI * x * p2 + p3) * cos (PI * x * p2 + p3)
              / (1 + p1 ^ 2 * (sin (PI * x * p2 + p3)) ^ 2) ^ 2)%R) <$> xdata).
Proof.
  rewrite baseDerivative_pointwise. f_equal. apply list_fmap_ext; intros i x _.
  apply derivative_at_formula.
Qed.

(** C3: the four columns of the default call of [basePartial] are
    1/denom, -2 p0 p1 sin^2/denom^2, pi x p3term and p3term, with
    p3term = -2 p0 p1^2 sin cos / denom^2.  The instance has the four
    parameters its constructor declares. *)
Theorem C3_partial_formulas {U} (uninit : nat -> nat -> R)
    (self : PositiveEtalonModel U) (p0 p1 p2 p3 : R) (xdata : list R)
    (Hnpbase : npbase self = 4%nat) (Hnpmax : npmax self = 4%nat) :
  basePartial uninit self xdata [p0; p1; p2; p3] None
  = Some (Ndarray2 4
            ((fun x =>
                let phase_arg := (PI * x * p2 + p3)%R in
                let denom := (1 + p1 ^ 2 * (sin phase_arg) ^ 2)%R in
                let p3term :=
                  (- 2 * p0 * p1 ^ 2 * sin phase_arg * cos phase_arg / denom ^ 2)%R in
                [ (1 / denom)%R;
                  (- 2 * p0 * p1 * (sin phase_arg) ^ 2 / denom ^ 2)%R;
                  (PI * x * p3term)%R;
                  p3term ]) <$> xdata)).
Proof.
  rewrite basePartial_default by done.
  rewrite basePartial_pointwise by (repeat constructor; lia).
  simpl. do 2 f_equal. apply list_fmap_ext; intros i x _.
  destruct (partial_at_formula p0 p1 p2 p3 x) as (E0 & E1 & E2 & E3).
  change ([partial_at p0 p1 p2 p3 0 x; partial_at p0 p1 p2 p3 1 x;
           partial_at p0 p1 p2 p3 2 x; partial_at p0 p1 p2 p3 3 x]
          = [Formula.d_p0 p0 p1 p2 p3 x; Formula.d_p1 p0 p1 p2 p3 x;
             Formula.d_p2 p0 p1 p2 p3 x; Formula.d_p3 p0 p1 p2 p3 x]).
  by rewrite E0, E1, E2, E3.
Qed.

Lemma C3_partial_formulas_witness :
  basePartial (fun _ _ => 7%R) self4 [0%R] [1%R; 1%R; 1%R; 0%R] None
  = Some (Ndarray2 4
            ((fun x =>
                let phase_arg := (PI * x * 1 + 0)%R in
                let denom := (1 + 1 ^ 2 * (sin phase_arg) ^ 2)%R in
                let p3term :=
                  (- 2 * 1 * 1 ^ 2 * sin phase_arg * cos phase_arg / denom ^ 2)%R in
                [ (1 / denom)%R;
                  (- 2 * 1 * 1 * (sin phase_arg) ^ 2 / denom ^ 2)%R;
                  (PI * x * p3term)%R;
                  p3term ]) <$> [0%R])).
Proof.
  apply (C3_partial_formulas (fun _ _ => 7%R) self4 1 1 1 0 [0%R]); reflexivity.
Defined.

(** The sign of a product of doubles is the product of the signs, also
    where the product is rounded, overflows or is a zero. *)
Lemma SFmul_opp_opp (a b : spec_float) :
  SFmul prec emax (SFopp a) (SFopp b) = SFmul prec emax a b.
Proof. destruct a as [[]|[]| |[] ? ?], b as [[]|[]| |[] ? ?]; reflexivity. Qed.

Lemma mul_opp_opp (x y : float) : ((- x) * (- y) = x * y)%float.
Proof. apply Prim2SF_inj. rewrite !mul_spec, !opp_spec. apply SFmul_opp_opp. Qed.

(** C6: over the reals the value has period pi in the phase p3 and does
    not see the sign of p1.  On doubles, whatever the mathematical library,
    the value for - p1 is the value for p1, double for double. *)
Theorem C6_value_symmetries :
  (forall (p0 p1 p2 p3 : R) (xdata : list R),
     baseResult xdata [p0; p1; p2; (p3 + PI)%R] = baseResult xdata [p0; p1; p2; p3]
     /\ baseResult xdata [p0; (- p1)%R; p2; p3] = baseResult xdata [p0; p1; p2; p3])
  /\ (forall (libm_sin libm_cos : float -> float) (p0 p1 p2 p3 : float)
        (xdata : list float),
        @baseResult float (binary64_ops libm_sin libm_cos) xdata
          [p0; (- p1)%float; p2; p3]
        = @baseResult float (binary64_ops libm_sin libm_cos) xdata [p0; p1; p2; p3]).
Proof.
  split.
  - intros p0 p1 p2 p3 xdata.
    rewrite !baseResult_pointwise. split; f_equal; apply list_fmap_ext; intros i x _.
    + unfold value_at, phase_at; simpl.
      replace (PI * x * p2 + (p3 + PI))%R with ((PI * x * p2 + p3) + PI)%R by ring.
      rewrite neg_sin. f_equal. ring.
    + unfold value_at, phase_at; simpl. f_equal. ring.
  - intros libm_sin libm_cos p0 p1 p2 p3 xdata.
    rewrite !baseResult_pointwise. f_equal. apply list_fmap_ext; intros i x _.
    unfold value_at; simpl. by rewrite mul_opp_opp.
Qed.

(** C6, on doubles: the period in p3 is lost.  At the sample 0 with the
    parameters [1, 1e16, 1, 0] the value is 1; with the phase 0 + math.pi
    it is 0.40003843846753734, because the sine of the double nearest to pi
    is not zero (it is 1.2246467991473532e-16, as returned by a correctly
    rounding library) and p1 * p1 = 1e32 makes it visible. *)
Lemma C6_binary64_phase_shift :
  let p1 := 0x1.1c37937e08p+53%float in
  let pi := 0x1.921fb54442d18p+1%float in
  Forall (fun t => is_finite t = true) [0%float; 1%float; p1; (0 + pi)%float]
  /\ (forall libm_sin libm_cos : float -> float,
        libm_sin 0%float = 0%float ->
        libm_sin pi = 0x1.1a62633145c07p-53%float ->
        @baseResult float (binary64_ops libm_sin libm_cos)
          [0%float] [1%float; p1; 1%float; 0%float] = Some [1%float]
        /\ @baseResult float (binary64_ops libm_sin libm_cos)
             [0%float] [1%float; p1; 1%float; (0 + pi)%float]
           = Some [0x1.99a3ad2971a51p-2%float])
  /\ (1 =? 0x1.99a3ad2971a51p-2)%float = false.
Proof.
  cbv zeta. split; [repeat constructor |]. split; [| vm_compute; reflexivity].
  intros sn cs Hzero Hpi. rewrite !baseResult_pointwise. simpl.
  unfold value_at, phase_at; simpl.
  replace (0x1.921fb54442d18p+1 * 0 * 1 + 0)%float with 0%float
    by (vm_compute; reflexivity).
  replace (0x1.921fb54442d18p+1 * 0 * 1 + (0 + 0x1.921fb54442d18p+1))%float
    with 0x1.921fb54442d18p+1%float by (vm_compute; reflexivity).
  rewrite Hzero, Hpi. split; vm_compute; reflexivity.
Qed.

(** C8: for p = [1, 30, 1, 0] and x = [0, 0.5, 1] the value is
    [1, 1/901, 1]. *)
Theorem C8_concrete_values :
  baseResult [0%R; 0.5%R; 1%R] [1%R; 30%R; 1%R; 0%R]
  = Some [1%R; (1 / 901)%R; 1%R].
Proof.
  rewrite baseResult_pointwise. simpl. unfold value_at, phase_at; simpl.
  replace (PI * 0 * 1 + 0)%R with 0%R by ring.
  replace (PI * 0.5 * 1 + 0)%R with (PI / 2)%R by lra.
  replace (PI * 1 * 1 + 0)%R with PI by ring.
  rewrite sin_0, sin_PI2, sin_PI.
  do 2 f_equal; [lra | f_equal; [lra | f_equal; lra]].
Qed.

Lemma C4_selection_order_witness :
  exists natural selected two : ndarray2 R,
    basePartial (fun _ _ => 7%R) self4 [0%R; 1%R] [1%R; 1%R; 1%R; 0%R] None = Some natural
    /\ ncols natural = 4%nat
    /\ (forall j, (j < 4)%nat ->
          column j natural = Some (partial_at 1%R 1%R 1%R 0%R (Z.of_nat j) <$> [0%R; 1%R]))
    /\ basePartial (fun _ _ => 7%R) self4 [0%R; 1%R] [1%R; 1%R; 1%R; 0%R] (Some [3; 0]%Z)
       = Some selected
    /\ ncols selected = length [3; 0]%Z
    /\ (forall k kp, [3; 0]%Z !! k = Some kp ->
          column k selected = column (Z.to_nat kp) natural)
    /\ basePartial (fun _ _ => 7%R) self4 [0%R; 1%R] [1%R; 1%R; 1%R; 0%R] (Some [3; 0]%Z)
       = Some two
    /\ ncols two = 2%nat
    /\ column 0 two = column 3 natural
    /\ column 1 two = column 0 natural.
Proof.
  apply (C4_selection_order (fun _ _ => 7%R) self4 1%R 1%R 1%R 0%R [0%R; 1%R] [3; 0]%Z).
  - repeat constructor; lia.
  - reflexivity.
  - reflexivity.
Defined.

(** Over the reals: the denominator 1 + p1^2 s^2 is at least 1 for all
    real p1 and s, the denominator [baseResult] divides by is of that form,
    and every value it returns is bounded by |p0| in absolute value. *)
Lemma real_value_bounded (p0 p1 p2 p3 : R) (xdata : list R) :
  (forall s : R, (1 <= 1 + p1 ^ 2 * s ^ 2)%R)
  /\ exists v : list R,
       baseResult xdata [p0; p1; p2; p3] = Some v
       /\ v = (fun x => (p0 / (1 + p1 ^ 2 * (sin (PI * x * p2 + p3)) ^ 2))%R) <$> xdata
       /\ Forall (fun y => (0 <= Rabs y <= Rabs p0)%R) v.
Proof.
  split; [apply denom_ge_1 |].
  eexists; split; [apply baseResult_formula |]. split; [done |].
  apply Forall_fmap, Forall_forall. intros x _; simpl.
  apply quotient_bounded, denom_ge_1.
Qed.

(** C5, on doubles: the parameters [1, 1e200, 1, 0] and the sample [0] are
    finite, and the value is NaN: p1 * p1 overflows to infinity, sin(0) is
    0, and infinity * 0 is NaN.  All that is used of the mathematical
    library is sin(0.0) = 0.0. *)
Lemma C5_binary64_not_finite :
  let p1 := 0x1.4e718d7d7625ap+664%float in
  Forall (fun t => is_finite t = true) [1%float; p1; 1%float; 0%float]
  /\ Forall (fun t => is_finite t = true) [0%float]
  /\ (forall libm_sin libm_cos : float -> float,
        libm_sin 0%float = 0%float ->
        @baseResult float (binary64_ops libm_sin libm_cos)
          [0%float] [1%float; p1; 1%float; 0%float] = Some [nan])
  /\ is_finite nan = false.
Proof.
  repeat split; try (repeat constructor; fail).
  intros sn cs Hsn. rewrite baseResult_pointwise. simpl.
  unfold value_at, phase_at; simpl.
  replace (0x1.921fb54442d18p+1 * 0 * 1 + 0)%float with 0%float
    by (vm_compute; reflexivity).
  rewrite Hsn. vm_compute. reflexivity.
Qed.

(** The same scenario on doubles.  The three sines are those of a correctly
    rounding library at 0, at fl(pi)/2 and at fl(pi); the last is not zero,
    but too small to be seen next to 1. *)
Lemma binary64_scenario (libm_sin libm_cos : float -> float) :
  libm_sin 0%float = 0%float ->
  libm_sin 0x1.921fb54442d18p+0%float = 1%float ->
  libm_sin 0x1.921fb54442d18p+1%float = 0x1.1a62633145c07p-53%float ->
  @baseResult float (binary64_ops libm_sin libm_cos)
    [0%float; 0.5%float; 1%float] [1%float; 30%float; 1%float; 0%float]
  = Some [1%float; (1 / 901)%float; 1%float].
Proof.
  intros H0 H1 H2. rewrite baseResult_pointwise. simpl.
  unfold value_at, phase_at; simpl.
  replace (0x1.921fb54442d18p+1 * 0 * 1 + 0)%float with 0%float
    by (vm_compute; reflexivity).
  replace (0x1.921fb54442d18p+1 * 0.5 * 1 + 0)%float with 0x1.921fb54442d18p+0%float
    by (vm_compute; reflexivity).
  replace (0x1.921fb54442d18p+1 * 1 * 1 + 0)%float with 0x1.921fb54442d18p+1%float
    by (vm_compute; reflexivity).
  rewrite H0, H1, H2. vm_compute. reflexivity.
Qed.

(** The constructor's parameters [1, 1, 1, 0] at x = 0: the value is 1 and
    the slope is 0. *)
Lemma default_scenario :
  baseResult [0%R] default_params = Some [1%R]
  /\ baseDerivative [0%R] default_params = Some [0%R].
Proof.
  unfold default_params. rewrite baseResult_pointwise, baseDerivative_pointwise.
  simpl. unfold value_at, derivative_at, phase_at; simpl.
  replace (PI * 0 * 1 + 0)%R with 0%R by ring. rewrite sin_0, cos_0.
  split; do 2 f_equal; field.
Qed.

Lemma derivative_chain_rule (p0 p1 p2 p3 x : R) :
  derivative_at p0 p1 p2 p3 x = (PI * p2 * partial_at p0 p1 p2 p3 3 x)%R.
Proof.
  destruct (partial_at_formula p0 p1 p2 p3 x) as (_ & _ & _ & E3).
  rewrite derivative_at_formula, E3.
  unfold Formula.derivative, Formula.d_p3, Formula.p3term, Rdiv. ring.
Qed.

(** C7: the x-derivative is pi * p2 times the column of [basePartial] for
    the phase p3 (column 3 of the default call). *)
Theorem C7_chain_rule {U} (uninit : nat -> nat -> R)
    (self : PositiveEtalonModel U) (p0 p1 p2 p3 : R) (xdata : list R)
    (Hnpbase : npbase self = 4%nat) (Hnpmax : npmax self = 4%nat) :
  exists (d : list R) (m : ndarray2 R) (col : list R),
    baseDerivative xdata [p0; p1; p2; p3] = Some d
    /\ basePartial uninit self xdata [p0; p1; p2; p3] None = Some m
    /\ column 3 m = Some col
    /\ d = (fun c => (PI * p2 * c)%R) <$> col.
Proof.
  eexists _, _, _.
  rewrite baseDerivative_pointwise, basePartial_default by done.
  rewrite basePartial_pointwise by (repeat constructor; lia).
  split; [done |]. split; [done |].
  split; [by apply (column_pointwise _ _ [0; 1; 2; 3]%Z _ 3 3%Z) |].
  rewrite <- list_fmap_compose. apply list_fmap_ext; intros i x _.
  apply derivative_chain_rule.
Qed.

Lemma C7_chain_rule_witness :
  exists (d : list R) (m : ndarray2 R) (col : list R),
    baseDerivative [0%R; 1%R] [1%R; 30%R; 1%R; 0%R] = Some d
    /\ basePartial (fun _ _ => 7%R) self4 [0%R; 1%R] [1%R; 30%R; 1%R; 0%R] None = Some m
    /\ column 3 m = Some col
    /\ d = (fun c => (PI * 1 * c)%R) <$> col.
Proof.
  apply (C7_chain_rule (fun _ _ => 7%R) self4 1%R 30%R 1%R 0%R [0%R; 1%R]); reflexivity.
Defined.

(** C7, on doubles: the identity is lost.  With the finite parameters
    [5e307, 1, 1, 0] the product - 2 * math.pi * params[0] overflows in
    [baseDerivative], while - 2 * params[0] in [basePartial] does not.  At
    the sample 0 the slope is NaN and pi * p2 times the phase column is
    -0.0; at the sample 0.25 the slope is minus infinity and pi * p2 times
    the phase column is the finite -6.981317007977318e+307.  The sines and
    cosines are those of a correctly rounding library at 0 and at
    fl(pi) / 4. *)
Lemma C7_binary64_chain_rule_fails :
  let p0 := 0x1.1ccf385ebc8ap+1022%float in
  let pi := 0x1.921fb54442d18p+1%float in
  Forall (fun t => is_finite t = true) [0%float; 0.25%float; p0; 1%float]
  /\ (forall (libm_sin libm_cos : float -> float) (uninit : nat -> nat -> float),
        libm_sin 0%float = 0%float ->
        libm_cos 0%float = 1%float ->
        libm_sin 0x1.921fb54442d18p-1%float = 0x1.6a09e667f3bccp-1%float ->
        libm_cos 0x1.921fb54442d18p-1%float = 0x1.6a09e667f3bcdp-1%float ->
        @baseDerivative float (binary64_ops libm_sin libm_cos)
          [0%float; 0.25%float] [p0; 1%float; 1%float; 0%float]
        = Some [nan; neg_infinity]
        /\ exists m : ndarray2 float,
             @basePartial float (binary64_ops libm_sin libm_cos) uninit unit self4
               [0%float; 0.25%float] [p0; 1%float; 1%float; 0%float] None = Some m
             /\ column 3 m = Some [(-0)%float; (-0x1.fa53f26f8811cp+1020)%float]
             /\ (fun c => (pi * 1 * c)%float)
                  <$> [(-0)%float; (-0x1.fa53f26f8811cp+1020)%float]
                = [(-0)%float; (-0x1.8dab44b0ee055p+1022)%float])
  /\ is_nan (-0)%float = false
  /\ is_finite (-0x1.8dab44b0ee055p+1022)%float = true
  /\ is_finite neg_infinity = false.
Proof.
  cbv zeta. split; [repeat constructor |].
  split; [| repeat split; vm_compute; reflexivity].
  intros sn cs uninit Hs0 Hc0 Hs1 Hc1. split.
  - rewrite baseDerivative_pointwise. simpl.
    unfold derivative_at, phase_at; simpl.
    replace (0x1.921fb54442d18p+1 * 0 * 1 + 0)%float with 0%float
      by (vm_compute; reflexivity).
    replace (0x1.921fb54442d18p+1 * 0.25 * 1 + 0)%float with 0x1.921fb54442d18p-1%float
      by (vm_compute; reflexivity).
    rewrite Hs0, Hc0, Hs1, Hc1. vm_compute. reflexivity.
  - eexists. rewrite basePartial_default by done.
    rewrite basePartial_pointwise by (repeat constructor; lia).
    split; [done |]. split; [| vm_compute; reflexivity].
    rewrite (column_pointwise _ _ [0; 1; 2; 3]%Z _ 3 3%Z) by done.
    simpl. unfold partial_at, phase_at; simpl.
    replace (0x1.921fb54442d18p+1 * 0 * 1 + 0)%float with 0%float
      by (vm_compute; reflexivity).
    replace (0x1.921fb54442d18p+1 * 0.25 * 1 + 0)%float with 0x1.921fb54442d18p-1%float
      by (vm_compute; reflexivity).
    rewrite Hs0, Hc0, Hs1, Hc1. vm_compute. reflexivity.
Qed.

(** ** The closed forms are the derivatives of the value *)

(** The value as a function of its phase argument: for any differentiable
    phase [g], u |-> p0 / (1 + p1^2 sin^2 (g u)) has the derivative
    -2 p0 p1^2 sin cos g' / denom^2. *)
Lemma etalon_derivative (p0 p1 : R) (g : R -> R) (x g' : R) :
  derivable_pt_lim g x g' ->
  derivable_pt_lim (fun u => (p0 / (1 + p1 ^ 2 * (sin (g u)) ^ 2))%R) x
    (- 2 * p0 * p1 ^ 2 * sin (g x) * cos (g x) * g'
     / (1 + p1 ^ 2 * (sin (g x)) ^ 2) ^ 2)%R.
Proof.
  intros Hg.
  assert (1 + p1 ^ 2 * sin (g x) ^ 2 <> 0)%R as Hd.
  { pose proof (denom_ge_1 p1 (sin (g x))). lra. }
  pose proof (derivable_pt_lim_comp g sin x _ _ Hg (derivable_pt_lim_sin (g x))) as Hs.
  pose proof (derivable_pt_lim_mult _ _ x _ _ Hs Hs) as Hs2.
  pose proof (derivable_pt_lim_scal _ (p1 ^ 2) x _ Hs2) as Hps.
  pose proof (derivable_pt_lim_plus _ _ x _ _ (derivable_pt_lim_const 1 x) Hps) as Hden.
  pose proof (derivable_pt_lim_div _ _ x _ _ (derivable_pt_lim_const p0 x) Hden) as Hq.
  unfold plus_fct, mult_fct, mult_real_fct, fct_cte, comp, div_fct in *.
  assert (1 + p1 ^ 2 * (sin (g x) * sin (g x)) <> 0)%R as Hd'.
  { intros Hz. apply Hd. rewrite <- Hz. ring. }
  specialize (Hq Hd').
  eapply derivable_pt_lim_ext in Hq.
  2:{ intros z. instantiate (1 := fun u => (p0 / (1 + p1 ^ 2 * sin (g u) ^ 2))%R). simpl.
      f_equal. ring. }
  match type of Hq with
  | derivable_pt_lim _ _ ?l =>
      replace (- 2 * p0 * p1 ^ 2 * sin (g x) * cos (g x) * g'
               / (1 + p1 ^ 2 * sin (g x) ^ 2) ^ 2)%R with l; [exact Hq |]
  end.
  unfold Rsqr. field. intros Hz. apply Hd. rewrite <- Hz. ring.
Qed.

Lemma affine_derivative (a b x : R) :
  derivable_pt_lim (fun u => (a * u + b)%R) x a.
Proof.
  pose proof (derivable_pt_lim_plus _ _ x _ _
                (derivable_pt_lim_scal _ a x _ (derivable_pt_lim_id x))
                (derivable_pt_lim_const b x)) as Hg.
  unfold plus_fct, mult_real_fct, fct_cte, id in Hg.
  replace (a * 1 + 0)%R with a in Hg by ring. exact Hg.
Qed.

(** What [baseDerivative] computes is the derivative of the value with
    respect to the sample x. *)
Lemma derivative_is_derivative (p0 p1 p2 p3 x : R) :
  derivable_pt_lim (fun u => Formula.value p0 p1 p2 p3 u) x
    (Formula.derivative p0 p1 p2 p3 x).
Proof.
  pose proof (etalon_derivative p0 p1 _ x _ (affine_derivative (PI * p2) p3 x)) as Hd.
  cbv beta in Hd.
  eapply derivable_pt_lim_ext in Hd.
  2:{ intros z. instantiate (1 := fun u => Formula.value p0 p1 p2 p3 u).
      unfold Formula.value, Formula.denom, Formula.phase_arg. cbv beta.
      by replace (PI * p2 * z + p3)%R with (PI * z * p2 + p3)%R by ring. }
  match type of Hd with
  | derivable_pt_lim _ _ ?l => replace (Formula.derivative p0 p1 p2 p3 x) with l; [exact Hd |]
  end.
  unfold Formula.derivative, Formula.denom, Formula.phase_arg, Rdiv.
  replace (PI * p2 * x + p3)%R with (PI * x * p2 + p3)%R by ring. ring.
Qed.

(** What [basePartial] computes for the keys 0 to 3 are the derivatives of
    the value with respect to p0, p1, p2 and p3. *)
Lemma d_p0_is_derivative (p0 p1 p2 p3 x : R) :
  derivable_pt_lim (fun u => Formula.value u p1 p2 p3 x) p0 (Formula.d_p0 p0 p1 p2 p3 x).
Proof.
  pose proof (affine_derivative (/ Formula.denom p1 p2 p3 x) 0 p0) as Hd.
  eapply derivable_pt_lim_ext in Hd.
  2:{ intros z. instantiate (1 := fun u => Formula.value u p1 p2 p3 x).
      unfold Formula.value, Rdiv. cbv beta. ring. }
  unfold Formula.d_p0, Rdiv. by rewrite Rmult_1_l.
Qed.

Lemma d_p1_is_derivative (p0 p1 p2 p3 x : R) :
  derivable_pt_lim (fun u => Formula.value p0 u p2 p3 x) p1 (Formula.d_p1 p0 p1 p2 p3 x).
Proof.
  set (s := sin (Formula.phase_arg p2 p3 x)).
  assert (1 + p1 ^ 2 * s ^ 2 <> 0)%R as Hd by (pose proof (denom_ge_1 p1 s); lra).
  pose proof (derivable_pt_lim_plus _ _ p1 _ _ (derivable_pt_lim_const 1 p1)
                (derivable_pt_lim_scal _ (s ^ 2) p1 _ (derivable_pt_lim_pow p1 2))) as Hden.
  pose proof (derivable_pt_lim_div _ _ p1 _ _ (derivable_pt_lim_const p0 p1) Hden) as Hq.
  unfold plus_fct, mult_real_fct, fct_cte, div_fct in *.
  assert (1 + s ^ 2 * p1 ^ 2 <> 0)%R as Hd'.
  { intros Hz. apply Hd. rewrite <- Hz. ring. }
  specialize (Hq Hd').
  eapply derivable_pt_lim_ext in Hq.
  2:{ intros z. instantiate (1 := fun u => Formula.value p0 u p2 p3 x).
      unfold Formula.value, Formula.denom. fold s. cbv beta. f_equal. ring. }
  match type of Hq with
  | derivable_pt_lim _ _ ?l => replace (Formula.d_p1 p0 p1 p2 p3 x) with l; [exact Hq |]
  end.
  unfold Formula.d_p1, Formula.denom. fold s. unfold Rsqr. simpl.
  field. intros Hz. apply Hd. rewrite <- Hz. ring.
Qed.

Lemma d_p2_is_derivative (p0 p1 p2 p3 x : R) :
  derivable_pt_lim (fun u => Formula.value p0 p1 u p3 x) p2 (Formula.d_p2 p0 p1 p2 p3 x).
Proof.
  pose proof (etalon_derivative p0 p1 _ p2 _ (affine_derivative (PI * x) p3 p2)) as Hd.
  cbv beta in Hd.
  match type of Hd with
  | derivable_pt_lim _ _ ?l => replace (Formula.d_p2 p0 p1 p2 p3 x) with l; [exact Hd |]
  end.
  unfold Formula.d_p2, Formula.p3term, Formula.denom, Formula.phase_arg, Rdiv. ring.
Qed.

Lemma d_p3_is_derivative (p0 p1 p2 p3 x : R) :
  derivable_pt_lim (fun u => Formula.value p0 p1 p2 u x) p3 (Formula.d_p3 p0 p1 p2 p3 x).
Proof.
  pose proof (etalon_derivative p0 p1 _ p3 _ (affine_derivative 1 (PI * x * p2) p3)) as Hd.
  cbv beta in Hd.
  eapply derivable_pt_lim_ext in Hd.
  2:{ intros z. instantiate (1 := fun u => Formula.value p0 p1 p2 u x).
      unfold Formula.value, Formula.denom, Formula.phase_arg. cbv beta.
      by replace (1 * z + PI * x * p2)%R with (PI * x * p2 + z)%R by ring. }
  match type of Hd with
  | derivable_pt_lim _ _ ?l => replace (Formula.d_p3 p0 p1 p2 p3 x) with l; [exact Hd |]
  end.
  unfold Formula.d_p3, Formula.p3term, Formula.denom, Formula.phase_arg, Rdiv.
  replace (1 * p3 + PI * x * p2)%R with (PI * x * p2 + p3)%R by ring. ring.
Qed.

(** ** Units *)

(** C9: [baseParameterUnit] gives the y-axis unit for 0, the dimensionless
    unit for 1 whatever the units of the instance, radians per x-axis unit
    for 2, radians for 3, and the y-axis unit for every other index. *)
Theorem C9_parameter_units {U} `{UnitOps U} (self other : PositiveEtalonModel U) (k : Z) :
  baseParameterUnit self 0 = yUnit self
  /\ baseParameterUnit self 1 = dimensionless
  /\ baseParameterUnit self 1 = baseParameterUnit other 1
  /\ baseParameterUnit self 2 = unit_div radians (xUnit self)
  /\ baseParameterUnit self 3 = radians
  /\ ((k < 0 \/ 3 < k)%Z -> baseParameterUnit self k = yUnit self).
Proof.
  repeat split. intros Hk. unfold baseParameterUnit.
  repeat (rewrite decide_False by lia). done.
Qed.

Example parameter_units_example :
  let self := {| npbase := 4; npmax := 4; xUnit := UStr "um"; yUnit := UStr "Jy" |} in
  baseParameterUnit self <$> [0; 1; 2; 3; 4; -1]%Z
  = [UStr "Jy"; UStr EmptyString; UQuot URad (UStr "um"); URad; UStr "Jy"; UStr "Jy"].
Proof. reflexivity. Qed.

(** ** The store: what a call leaves of it *)

Section StoreFacts.
Context {F : Type} `{Float64Ops F} {U : Type}.
Implicit Types h : store F U.

Lemma wp_bind {T T'} (c : M F U T) (k : T -> M F U T') h Q :
  wp c h (fun r h' => match r with
                      | Ok t => wp (k t) h' Q
                      | Raise e => Q (Raise e) h'
                      end) ->
  wp (bind c k) h Q.
Proof. unfold wp, bind. by destruct (c h) as [[t|e] h']. Qed.

Lemma wp_new (o : object F U) h Q :
  (forall l h', h ⊆ h' -> l ∉ dom h -> h' !! l = Some o -> Q (Ok l) h') ->
  wp (new o) h Q.
Proof.
  intros HQ. unfold wp, new; simpl.
  pose proof (is_fresh (dom h)) as Hfresh.
  apply HQ; [| done | by rewrite lookup_insert_eq].
  apply insert_subseteq. by apply not_elem_of_dom.
Qed.

Lemma wp_ret {T} (t : T) h (Q : result T -> store F U -> Prop) :
  Q (Ok t) h -> wp (ret t) h Q.
Proof. done. Qed.

Lemma wp_raise {T} (e : exn) h (Q : result T -> store F U -> Prop) :
  Q (Raise e) h -> wp (raise e) h Q.
Proof. done. Qed.

Lemma wp_write l (o : object F U) h Q :
  Q (Ok tt) (<[l := o]> h) -> wp (write l o) h Q.
Proof. done. Qed.

Lemma wp_read_array l h Q :
  (forall v, h !! l = Some (OArray v) -> Q (Ok v) h) ->
  ((forall v, h !! l <> Some (OArray v)) -> Q (Raise TypeError) h) ->
  wp (read_array l) h Q.
Proof.
  intros Hok Hno. unfold wp, read_array.
  destruct (h !! l) as [[v|m|L|me]|] eqn:E; simpl; auto.
Qed.

Lemma wp_read_matrix l h Q :
  (forall m, h !! l = Some (OMatrix m) -> Q (Ok m) h) ->
  ((forall m, h !! l <> Some (OMatrix m)) -> Q (Raise TypeError) h) ->
  wp (read_matrix l) h Q.
Proof.
  intros Hok Hno. unfold wp, read_matrix.
  destruct (h !! l) as [[v|m|L|me]|] eqn:E; simpl; auto.
Qed.

Lemma wp_read_indices l h Q :
  (forall L, h !! l = Some (OIndices L) -> Q (Ok L) h) ->
  ((forall L, h !! l <> Some (OIndices L)) -> Q (Raise TypeError) h) ->
  wp (read_indices l) h Q.
Proof.
  intros Hok Hno. unfold wp, read_indices.
  destruct (h !! l) as [[v|m|L|me]|] eqn:E; simpl; auto.
Qed.

Lemma wp_read_self l h Q :
  (forall me, h !! l = Some (OModel me) -> Q (Ok me) h) ->
  ((forall me, h !! l <> Some (OModel me)) -> Q (Raise TypeError) h) ->
  wp (read_self l) h Q.
Proof.
  intros Hok Hno. unfold wp, read_self.
  destruct (h !! l) as [[v|m|L|me]|] eqn:E; simpl; auto.
Qed.

Lemma wp_getitem a (k : nat) h Q :
  (forall v t, h !! a = Some (OArray v) -> v !! k = Some t -> Q (Ok t) h) ->
  (forall v, h !! a = Some (OArray v) -> v !! k = None -> Q (Raise IndexError) h) ->
  ((forall v, h !! a <> Some (OArray v)) -> Q (Raise TypeError) h) ->
  wp (getitem a k) h Q.
Proof.
  intros Hok Hix Hno. unfold getitem. apply wp_bind, wp_read_array; [| done].
  intros v Hv. destruct (v !! k) as [t|] eqn:E; [by eapply Hok | by eapply Hix].
Qed.

Lemma wp_unop (f : list F -> list F) a h Q :
  (forall v l h', h !! a = Some (OArray v) -> h ⊆ h' -> l ∉ dom h ->
     h' !! l = Some (OArray (f v)) -> Q (Ok l) h') ->
  ((forall v, h !! a <> Some (OArray v)) -> Q (Raise TypeError) h) ->
  wp (unop f a) h Q.
Proof.
  intros Hok Hno. unfold unop. apply wp_bind, wp_read_array; [| done].
  intros v Hv. apply wp_new. intros l h' ? ? ?. by eapply Hok.
Qed.

Lemma wp_binop (f : list F -> list F -> list F) a b h Q :
  (forall v w l h', h !! a = Some (OArray v) -> h !! b = Some (OArray w) ->
     h ⊆ h' -> l ∉ dom h -> h' !! l = Some (OArray (f v w)) -> Q (Ok l) h') ->
  ((forall v, h !! a <> Some (OArray v)) -> Q (Raise TypeError) h) ->
  ((forall v, h !! b <> Some (OArray v)) -> Q (Raise TypeError) h) ->
  wp (binop f a b) h Q.
Proof.
  intros Hok Hno1 Hno2. unfold binop. apply wp_bind, wp_read_array; [| done].
  intros v Hv. apply wp_bind, wp_read_array; [| done].
  intros w Hw. apply wp_new. intros l h' ? ? ?. by eapply Hok.
Qed.

Lemma insert_updated_at h a (o : object F U) : updated_at h a o (<[a := o]> h).
Proof.
  split; [| split].
  - intros x o' Hne Hx. by rewrite lookup_insert_ne.
  - apply lookup_insert_eq.
  - intros h0 Hsub Ha. apply insert_subseteq_r; [by apply not_elem_of_dom | done].
Qed.

Lemma wp_imul a b h Q :
  (forall v w h', h !! a = Some (OArray v) -> h !! b = Some (OArray w) ->
     updated_at h a (OArray (mul_aa v w)) h' -> Q (Ok tt) h') ->
  ((forall v, h !! a <> Some (OArray v)) -> Q (Raise TypeError) h) ->
  ((forall v, h !! b <> Some (OArray v)) -> Q (Raise TypeError) h) ->
  wp (imul a b) h Q.
Proof.
  intros Hok Hno1 Hno2. unfold imul. apply wp_bind, wp_read_array; [| done].
  intros v Hv. apply wp_bind, wp_read_array; [| done].
  intros w Hw. apply wp_write. eapply Hok; eauto using insert_updated_at.
Qed.

Lemma wp_setitem_column partial (k : nat) a h Q :
  (forall w m m' h', h !! a = Some (OArray w) -> h !! partial = Some (OMatrix m) ->
     set_column k w m = Some m' ->
     updated_at h partial (OMatrix m') h' -> Q (Ok tt) h') ->
  (forall w m e, h !! a = Some (OArray w) -> h !! partial = Some (OMatrix m) ->
     set_column k w m = None -> Q (Raise e) h) ->
  ((forall v, h !! a <> Some (OArray v)) -> Q (Raise TypeError) h) ->
  ((forall m, h !! partial <> Some (OMatrix m)) -> Q (Raise TypeError) h) ->
  wp (setitem_column partial k a) h Q.
Proof.
  intros Hok Hix Hno1 Hno2. unfold setitem_column.
  apply wp_bind, wp_read_array; [| done].
  intros w Hw. apply wp_bind, wp_read_matrix; [| done].
  intros m Hm. destruct (set_column k w m) as [m'|] eqn:E.
  - apply wp_write. eapply Hok; eauto using insert_updated_at.
  - destruct (decide (k < ncols m)%nat); apply wp_raise; by eapply Hix.
Qed.

(** What is known of the store survives an allocation. *)
Lemma fresh_not_in_dom h0 h l : h0 ⊆ h -> l ∉ dom h -> l ∉ dom h0.
Proof. intros Hsub Hl Hl0. apply Hl. by apply (subseteq_dom h0 h). Qed.

Lemma fresh_neq h l x (o : object F U) : l ∉ dom h -> h !! x = Some o -> l <> x.
Proof. intros Hl Hx ->. apply Hl, elem_of_dom. eauto. Qed.

(** A write to an object that was allocated after [h0] leaves [h0] in
    place. *)
Lemma write_outside h0 h l (o : object F U) : h0 ⊆ h -> l ∉ dom h0 -> h0 ⊆ <[l := o]> h.
Proof. intros Hsub Hl. apply insert_subseteq_r; [by apply not_elem_of_dom | done]. Qed.


(** *** Running a method step by step *)

(** The proofs below run a method one numpy operation at a time.  They keep,
    for the store [h] reached so far: [H0 : h0 ⊆ h] for the store [h0] of
    the call, one fact [h !! a = Some o] per object read or allocated, and
    [l ∉ dom h0] for the objects allocated. *)

(** Two facts about one thing: identify what they say. *)
Ltac subst_either E :=
  lazymatch type of E with
  | ?a = ?b => first [ is_var b; subst b | is_var a; subst a ]
  end.

Ltac same_value Hnew :=
  first [ discriminate Hnew
        | let E := fresh "E" in
          injection Hnew as E;
          first [ discriminate E
                | let E' := fresh "E" in injection E as E'; subst_either E'
                | subst_either E ] ].

(** A second fact about an object that has one already. *)
Ltac dedup Hnew :=
  try match type of Hnew with
      | ?h !! ?a = Some _ =>
          match goal with
          | Hf : h !! a = Some _ |- _ =>
              assert_fails (constr_eq Hf Hnew);
              rewrite Hf in Hnew; same_value Hnew
          end
      end.

(** The facts about [h] hold of a store that extends it. *)
Ltac lift_facts Hsub :=
  lazymatch type of Hsub with
  | ?h ⊆ ?h' =>
      repeat match goal with
             | Hf : h !! ?x = Some ?o |- _ =>
                 apply (fun Hx => lookup_weaken h h' x o Hx Hsub) in Hf
             end
  end.

(** After an allocation of [l] in [h], with result store [h']. *)
Ltac allocated H0 Hsub Hfresh :=
  lazymatch type of Hfresh with
  | ?l ∉ dom ?h =>
      repeat match goal with
             | Hf : h !! ?x = Some ?o |- _ =>
                 lazymatch goal with
                 | _ : l <> x |- _ => fail
                 | _ => pose proof (fresh_neq h l x o Hfresh Hf)
                 end
             end;
      lift_facts Hsub;
      apply (fresh_not_in_dom _ h l H0) in Hfresh;
      apply (fun Hx => transitivity Hx Hsub) in H0;
      clear Hsub
  end.

(** After a write to the object [a], allocated by the call: the facts about
    the other objects stay, the fact about [a] is the new content. *)
Ltac written H0 Hupd :=
  lazymatch type of Hupd with
  | updated_at ?h ?a ?o ?h' =>
      let Hother := fresh "Hother" in
      let Hself := fresh "Hl" in
      let Hframe := fresh "Hframe" in
      destruct Hupd as (Hother & Hself & Hframe);
      match goal with
      | Hfr : a ∉ dom _ |- _ => apply (fun Hx => Hframe _ Hx Hfr) in H0
      end;
      repeat match goal with
             | Hf : h !! ?x = Some ?o' |- _ =>
                 first [ lazymatch x with a => clear Hf end
                       | match goal with
                         | Hne : a <> x |- _ => apply (Hother x o' Hne) in Hf
                         | Hne : x <> a |- _ => apply (Hother x o' (not_eq_sym Hne)) in Hf
                         end
                       | clear Hf ]
             end;
      clear Hother Hframe
  end.

(** The value-level model reads the parameters that the run has read. *)
Ltac rewrite_lookups :=
  repeat match goal with
         | Hk : ?ps !! ?k = _ |- context [?ps !! ?k] => rewrite Hk
         end.

(** An exception: the store of the call is intact, and the value-level
    model fails as well, either because an object it assumes is not there
    or because the parameter vector is too short. *)
Ltac raised H0 unfolder :=
  cbv beta iota;
  first
    [ exfalso;
      match goal with
      | Hno : forall v, ?h !! ?a <> Some _, Hf : ?h !! ?a = Some _ |- _ => exact (Hno _ Hf)
      | Hnone : ?ps !! ?k = None, Hk : ?ps !! ?k = Some _ |- _ =>
          rewrite Hk in Hnone; discriminate Hnone
      end
    | unfold agrees;
      split; [exact H0 |];
      intros;
      repeat match goal with
             | Hx : ?hs !! ?x = Some ?o |- _ =>
                 lazymatch type of H0 with
                 | hs ⊆ ?h =>
                     assert_fails (constr_eq hs h);
                     apply (fun Hx' => lookup_weaken hs h x o Hx' H0) in Hx; dedup Hx
                 end
             end;
      first [ exfalso;
              match goal with
              | Hno : forall v, _ !! _ <> Some _ |- _ => eapply Hno; eassumption
              end
            | unfolder; rewrite_lookups; reflexivity ] ].

(** A result: it is a new object, and its content is the one the
    value-level model computes. *)
Ltac returned H0 unfolder :=
  cbv beta iota; unfold agrees;
  split; [exact H0 |];
  split; [assumption |];
  eexists; split; [eassumption |];
  intros;
  repeat match goal with
         | Hx : ?hs !! ?x = Some ?o |- _ =>
             lazymatch type of H0 with
             | hs ⊆ ?h =>
                 assert_fails (constr_eq hs h);
                 apply (fun Hx' => lookup_weaken hs h x o Hx' H0) in Hx; dedup Hx
             end
         end;
  unfolder; rewrite_lookups; reflexivity.

Ltac wp_step H0 unfolder :=
  cbv beta iota;
  repeat lazymatch goal with |- wp (bind _ _) _ _ => apply wp_bind end;
  lazymatch goal with
  | |- wp (unop _ _) _ _ =>
      apply wp_unop;
      [ let v := fresh "v" in let l := fresh "l" in let h' := fresh "h" in
        let Hv := fresh "Hv" in let Hsub := fresh "Hsub" in
        let Hfresh := fresh "Hfresh" in let Hl := fresh "Hl" in
        intros v l h' Hv Hsub Hfresh Hl; dedup Hv; allocated H0 Hsub Hfresh
      | let Hno := fresh "Hno" in intros Hno; raised H0 unfolder ]
  | |- wp (binop _ _ _) _ _ =>
      apply wp_binop;
      [ let v := fresh "v" in let w := fresh "w" in let l := fresh "l" in
        let h' := fresh "h" in
        let Hv := fresh "Hv" in let Hw := fresh "Hw" in let Hsub := fresh "Hsub" in
        let Hfresh := fresh "Hfresh" in let Hl := fresh "Hl" in
        intros v w l h' Hv Hw Hsub Hfresh Hl; dedup Hv; dedup Hw;
        allocated H0 Hsub Hfresh
      | let Hno := fresh "Hno" in intros Hno; raised H0 unfolder
      | let Hno := fresh "Hno" in intros Hno; raised H0 unfolder ]
  | |- wp (imul ?a _) _ _ =>
      apply wp_imul;
      [ let v := fresh "v" in let w := fresh "w" in
        let Hv := fresh "Hv" in let Hw := fresh "Hw" in
        let h' := fresh "h" in let Hupd := fresh "Hupd" in
        intros v w h' Hv Hw Hupd; dedup Hv; dedup Hw; written H0 Hupd
      | let Hno := fresh "Hno" in intros Hno; raised H0 unfolder
      | let Hno := fresh "Hno" in intros Hno; raised H0 unfolder ]
  | |- wp (ret _) _ _ => apply wp_ret
  | |- wp (new _) _ _ =>
      apply wp_new;
      let l := fresh "l" in let h' := fresh "h" in
      let Hsub := fresh "Hsub" in let Hfresh := fresh "Hfresh" in let Hl := fresh "Hl" in
      intros l h' Hsub Hfresh Hl; allocated H0 Hsub Hfresh
  | |- wp (read_array _) _ _ =>
      apply wp_read_array;
      [ let v := fresh "v" in let Hv := fresh "Hv" in intros v Hv; dedup Hv
      | let Hno := fresh "Hno" in intros Hno; raised H0 unfolder ]
  | |- wp (read_self _) _ _ =>
      apply wp_read_self;
      [ let v := fresh "me" in let Hv := fresh "Hv" in intros v Hv; dedup Hv
      | let Hno := fresh "Hno" in intros Hno; raised H0 unfolder ]
  | |- wp (read_indices _) _ _ =>
      apply wp_read_indices;
      [ let v := fresh "L" in let Hv := fresh "Hv" in intros v Hv; dedup Hv
      | let Hno := fresh "Hno" in intros Hno; raised H0 unfolder ]
  | |- wp (getitem _ _) _ _ =>
      apply wp_getitem;
      [ let v := fresh "v" in let t := fresh "t" in
        let Hv := fresh "Hv" in let Ht := fresh "Ht" in
        intros v t Hv Ht; dedup Hv;
        try match type of Ht with
            | ?ps !! ?k = Some _ =>
                match goal with
                | Hk : ps !! k = Some _ |- _ =>
                    assert_fails (constr_eq Hk Ht);
                    rewrite Hk in Ht; same_value Ht
                end
            end
      | let v := fresh "v" in let Hv := fresh "Hv" in let Hnone := fresh "Hnone" in
        intros v Hv Hnone; dedup Hv; raised H0 unfolder
      | let Hno := fresh "Hno" in intros Hno; raised H0 unfolder ]
  end.

Lemma baseResult_obj_agrees (self xdata params : loc) h0 :
  wp (baseResult_obj self xdata params) h0
    (agrees OArray h0
       (fun o => forall xs ps,
          h0 !! xdata = Some (OArray xs) -> h0 !! params = Some (OArray ps) ->
          baseResult xs ps = o)).
Proof.
  assert (h0 ⊆ h0) as H0 by done. revert H0. generalize h0 at 2 3 as h. intros h H0.
  unfold baseResult_obj, phase_obj.
  repeat wp_step H0 ltac:(unfold baseResult).
  returned H0 ltac:(unfold baseResult).
Qed.

Lemma baseDerivative_obj_agrees (self xdata params : loc) h0 :
  wp (baseDerivative_obj self xdata params) h0
    (agrees OArray h0
       (fun o => forall xs ps,
          h0 !! xdata = Some (OArray xs) -> h0 !! params = Some (OArray ps) ->
          baseDerivative xs ps = o)).
Proof.
  assert (h0 ⊆ h0) as H0 by done. revert H0. generalize h0 at 2 3 as h. intros h H0.
  unfold baseDerivative_obj, phase_obj.
  repeat wp_step H0 ltac:(unfold baseDerivative).
  returned H0 ltac:(unfold baseDerivative).
Qed.

Lemma wp_mono {T} (c : M F U T) h (Q Q' : result T -> store F U -> Prop) :
  wp c h Q -> (forall r h', Q r h' -> Q' r h') -> wp c h Q'.
Proof. unfold wp. auto. Qed.

Lemma kind_neq h (partial a : loc) (m : ndarray2 F) (v : list F) :
  h !! partial = Some (OMatrix m) -> h !! a = Some (OArray v) -> partial <> a.
Proof. intros Hm Ha ->. rewrite Hm in Ha. discriminate. Qed.

(** The loop of [basePartial]: it writes to [partial] only, and does to it
    what the value-level loop does. *)
Lemma fill_columns_obj_agrees (e : partial_env) (xs s2 dd d2 p3 : list F) (p0 p1 : F)
    (partial : loc) (ps : list F) h0 :
  let c := {| l_xdata := xs; l_p0 := p0; l_p1 := p1;
              l_s2 := s2; l_dd := dd; l_d2 := d2; l_p3 := p3 |} in
  partial ∉ dom h0 ->
  ps !! 0%nat = Some p0 -> ps !! 1%nat = Some p1 ->
  forall (L : list Z) (k : nat) h (m : ndarray2 F),
    h0 ⊆ h ->
    h !! partial = Some (OMatrix m) ->
    h !! e_xdata e = Some (OArray xs) ->
    h !! e_params e = Some (OArray ps) ->
    h !! e_s2 e = Some (OArray s2) ->
    h !! e_dd e = Some (OArray dd) ->
    h !! e_d2 e = Some (OArray d2) ->
    h !! e_p3 e = Some (OArray p3) ->
    wp (fill_columns_obj e partial k L) h
      (fun r h' =>
         h0 ⊆ h'
         /\ match r with
            | Ok _ => exists m', h' !! partial = Some (OMatrix m')
                                 /\ fill_columns c k L m = Some m'
            | Raise _ => fill_columns c k L m = None
            end).
Proof.
  intros c Hpartial Hp0 Hp1 L. induction L as [|kp L IH];
    intros k h m H0 Hm Hxdata Hparams Hs2 Hdd Hd2 Hp3.
  { apply wp_ret. split; [done |]. by exists m. }
  pose proof (kind_neq _ _ _ _ _ Hm Hxdata).
  pose proof (kind_neq _ _ _ _ _ Hm Hparams).
  pose proof (kind_neq _ _ _ _ _ Hm Hs2).
  pose proof (kind_neq _ _ _ _ _ Hm Hdd).
  pose proof (kind_neq _ _ _ _ _ Hm Hd2).
  pose proof (kind_neq _ _ _ _ _ Hm Hp3).
  assert (forall h' v,
            h0 ⊆ h' -> h' !! partial = Some (OMatrix m) ->
            h' !! e_xdata e = Some (OArray xs) ->
            h' !! e_params e = Some (OArray ps) ->
            h' !! e_s2 e = Some (OArray s2) ->
            h' !! e_dd e = Some (OArray dd) ->
            h' !! e_d2 e = Some (OArray d2) ->
            h' !! e_p3 e = Some (OArray p3) ->
            forall a, h' !! a = Some (OArray v) -> parts c kp = Some v ->
            wp (bind (setitem_column partial k a)
                     (fun _ => fill_columns_obj e partial (S k) L)) h'
              (fun r h'' =>
                 h0 ⊆ h''
                 /\ match r with
                    | Ok _ => exists m', h'' !! partial = Some (OMatrix m')
                                         /\ fill_columns c k (kp :: L) m = Some m'
                    | Raise _ => fill_columns c k (kp :: L) m = None
                    end)) as Hrest.
  { clear dependent h. intros h v H0 Hm Hxdata Hparams Hs2 Hdd Hd2 Hp3 a Ha Hparts.
    apply wp_bind, wp_setitem_column.
    - intros w m0 m' h' Hw Hm0 Hset (Hother & Hself & Hframe).
      rewrite Ha in Hw; injection Hw as <-. rewrite Hm in Hm0; injection Hm0 as <-.
      eapply wp_mono.
      + apply (IH (S k) h' m'); auto.
      + intros r h'' [Hsub Hr]. split; [done |].
        simpl. rewrite Hparts; simpl. rewrite Hset; simpl. done.
    - intros w m0 ex Hw Hm0 Hset.
      rewrite Ha in Hw; injection Hw as <-. rewrite Hm in Hm0; injection Hm0 as <-.
      split; [done |]. simpl. rewrite Hparts; simpl. by rewrite Hset.
    - intros Hno. by destruct (Hno v).
    - intros Hno. by destruct (Hno m). }
  destruct kp as [|[[p|p|]|[p|p|]|]|p]; simpl fill_columns_obj; unfold parts_obj;
    try (apply wp_bind, wp_raise; split; [done | reflexivity]);
    repeat wp_step H0 idtac; cbv beta iota;
    (eapply Hrest; [done | eassumption ..| reflexivity]).
Qed.

Lemma basePartial_obj_default_agrees (uninit : nat -> nat -> F)
    (self xdata params : loc) h0 :
  wp (basePartial_obj uninit self xdata params None) h0
    (agrees OMatrix h0
       (fun o => forall me xs ps,
          h0 !! self = Some (OModel me) ->
          h0 !! xdata = Some (OArray xs) -> h0 !! params = Some (OArray ps) ->
          basePartial uninit me xs ps None = o)).
Proof.
  assert (h0 ⊆ h0) as H0 by done. revert H0. generalize h0 at 2 3 as h. intros h H0.
  unfold basePartial_obj, phase_obj.
  repeat wp_step H0 ltac:(unfold basePartial).
  cbv beta iota zeta. apply wp_bind. eapply wp_mono.
  { eapply fill_columns_obj_agrees with (ps := v0) (h0 := h0); simpl; eassumption. }
  intros [[]|ex] h' [Hsub Hr].
  - apply wp_ret. destruct Hr as (m' & Hm' & Hfill).
    split; [done |]. split; [done |]. exists m'. split; [done |].
    intros me' xs ps Hme Hxs Hps.
    apply (fun Hx => lookup_weaken _ _ _ _ Hx H0) in Hme, Hxs, Hps.
    dedup Hme. dedup Hxs. dedup Hps.
    unfold basePartial. rewrite_lookups. exact Hfill.
  - split; [done |].
    intros me' xs ps Hme Hxs Hps.
    apply (fun Hx => lookup_weaken _ _ _ _ Hx H0) in Hme, Hxs, Hps.
    dedup Hme. dedup Hxs. dedup Hps.
    unfold basePartial. rewrite_lookups. exact Hr.
Qed.

Lemma basePartial_obj_selection_agrees (uninit : nat -> nat -> F)
    (self xdata params parlist : loc) h0 :
  wp (basePartial_obj uninit self xdata params (Some parlist)) h0
    (agrees OMatrix h0
       (fun o => forall U' (me : PositiveEtalonModel U') xs ps L,
          h0 !! parlist = Some (OIndices L) ->
          h0 !! xdata = Some (OArray xs) -> h0 !! params = Some (OArray ps) ->
          basePartial uninit me xs ps (Some L) = o)).
Proof.
  assert (h0 ⊆ h0) as H0 by done. revert H0. generalize h0 at 2 3 as h. intros h H0.
  unfold basePartial_obj, phase_obj.
  repeat wp_step H0 ltac:(unfold basePartial).
  cbv beta iota zeta. apply wp_bind. eapply wp_mono.
  { eapply fill_columns_obj_agrees with (ps := v0) (h0 := h0); simpl; eassumption. }
  intros [[]|ex] h' [Hsub Hr].
  - apply wp_ret. destruct Hr as (m' & Hm' & Hfill).
    split; [done |]. split; [done |]. exists m'. split; [done |].
    intros U' me' xs ps L' HL Hxs Hps.
    apply (fun Hx => lookup_weaken _ _ _ _ Hx H0) in HL, Hxs, Hps.
    dedup HL. dedup Hxs. dedup Hps.
    unfold basePartial. rewrite_lookups. exact Hfill.
  - split; [done |].
    intros U' me' xs ps L' HL Hxs Hps.
    apply (fun Hx => lookup_weaken _ _ _ _ Hx H0) in HL, Hxs, Hps.
    dedup HL. dedup Hxs. dedup Hps.
    unfold basePartial. rewrite_lookups. exact Hr.
Qed.

Lemma agrees_unchanged_and_fresh {A} (inj : A -> object F U) h0
    (spec : option A -> Prop) (c : M F U loc) :
  wp c h0 (agrees inj h0 spec) -> wp c h0 (unchanged_and_fresh h0).
Proof.
  intros Hc. eapply wp_mono; [exact Hc |].
  intros r h' [Hsub Hr]. split.
  - intros l o Hl. by eapply lookup_weaken.
  - intros out ->. destruct Hr as (Hout & a & Ha & _).
    split; [by apply not_elem_of_dom | by eexists].
Qed.

(** C10: none of [baseResult], [baseDerivative] and [basePartial] changes an
    object that was there when it was called, whatever the call ends with,
    and the object each returns is a new one. *)
Theorem C10_arguments_unchanged (uninit : nat -> nat -> F)
    (self xdata params : loc) (parlist : option loc) (h : store F U) :
  wp (baseResult_obj self xdata params) h (unchanged_and_fresh h)
  /\ wp (baseDerivative_obj self xdata params) h (unchanged_and_fresh h)
  /\ wp (basePartial_obj uninit self xdata params parlist) h (unchanged_and_fresh h).
Proof.
  split; [| split].
  - eapply agrees_unchanged_and_fresh, baseResult_obj_agrees.
  - eapply agrees_unchanged_and_fresh, baseDerivative_obj_agrees.
  - destruct parlist as [pl|].
    + eapply agrees_unchanged_and_fresh, basePartial_obj_selection_agrees.
    + eapply agrees_unchanged_and_fresh, basePartial_obj_default_agrees.
Qed.

(** On arguments of the right kind the calls do return, and the content of
    the object returned is the array of the value-level model. *)
Lemma baseResult_obj_returns (self xdata params : loc) h (xs : list F) (p0 p1 p2 p3 : F) :
  h !! xdata = Some (OArray xs) ->
  h !! params = Some (OArray [p0; p1; p2; p3]) ->
  exists out h',
    baseResult_obj self xdata params h = (Ok out, h')
    /\ h' !! out = Some (OArray (value_at p0 p1 p2 p3 <$> xs)).
Proof.
  intros Hxs Hps. pose proof (baseResult_obj_agrees self xdata params h) as Hc.
  unfold wp, agrees in Hc.
  destruct (baseResult_obj self xdata params h) as [[out|ex] h']; simpl in Hc.
  - destruct Hc as (_ & _ & v & Hout & Hv). exists out, h'. split; [done |].
    specialize (Hv _ _ Hxs Hps). rewrite baseResult_pointwise in Hv. by simplify_eq.
  - destruct Hc as [_ Hv]. specialize (Hv _ _ Hxs Hps).
    rewrite baseResult_pointwise in Hv. discriminate.
Qed.

Lemma baseDerivative_obj_returns (self xdata params : loc) h (xs : list F)
    (p0 p1 p2 p3 : F) :
  h !! xdata = Some (OArray xs) ->
  h !! params = Some (OArray [p0; p1; p2; p3]) ->
  exists out h',
    baseDerivative_obj self xdata params h = (Ok out, h')
    /\ h' !! out = Some (OArray (derivative_at p0 p1 p2 p3 <$> xs)).
Proof.
  intros Hxs Hps. pose proof (baseDerivative_obj_agrees self xdata params h) as Hc.
  unfold wp, agrees in Hc.
  destruct (baseDerivative_obj self xdata params h) as [[out|ex] h']; simpl in Hc.
  - destruct Hc as (_ & _ & v & Hout & Hv). exists out, h'. split; [done |].
    specialize (Hv _ _ Hxs Hps). rewrite baseDerivative_pointwise in Hv. by simplify_eq.
  - destruct Hc as [_ Hv]. specialize (Hv _ _ Hxs Hps).
    rewrite baseDerivative_pointwise in Hv. discriminate.
Qed.

Lemma basePartial_obj_returns (uninit : nat -> nat -> F)
    (self xdata params parlist : loc) h (xs : list F) (p0 p1 p2 p3 : F) (L : list Z) :
  h !! xdata = Some (OArray xs) ->
  h !! params = Some (OArray [p0; p1; p2; p3]) ->
  h !! parlist = Some (OIndices L) ->
  Forall (fun kp => (0 <= kp <= 3)%Z) L ->
  exists out h',
    basePartial_obj uninit self xdata params (Some parlist) h = (Ok out, h')
    /\ h' !! out
       = Some (OMatrix (Ndarray2 (length L)
                          ((fun x => (fun kp => partial_at p0 p1 p2 p3 kp x) <$> L) <$> xs))).
Proof.
  intros Hxs Hps HL Hvalid.
  pose proof (basePartial_obj_selection_agrees uninit self xdata params parlist h) as Hc.
  unfold wp, agrees in Hc.
  destruct (basePartial_obj uninit self xdata params (Some parlist) h)
    as [[out|ex] h']; simpl in Hc.
  - destruct Hc as (_ & _ & v & Hout & Hv). exists out, h'. split; [done |].
    specialize (Hv _ self4 _ _ _ HL Hxs Hps).
    rewrite basePartial_pointwise in Hv by done. by simplify_eq.
  - destruct Hc as [_ Hv]. specialize (Hv _ self4 _ _ _ HL Hxs Hps).
    rewrite basePartial_pointwise in Hv by done. discriminate.
Qed.
End StoreFacts.

(** ** When the methods raise, and the shape of what they return *)

Section Edges.
Context {F : Type} `{Float64Ops F}.

(** The keys the dictionary [parts] has. *)
Lemma parts_is_Some (c : partial_locals F) (kp : Z) :
  is_Some (parts c kp) <-> (0 <= kp <= 3)%Z.
Proof.
  split.
  - intros [v Hv]. destruct kp as [|[[p|p|]|[p|p|]|]|p]; simpl in Hv; done || lia.
  - intros Hkp.
    assert (kp = 0 \/ kp = 1 \/ kp = 2 \/ kp = 3)%Z as [-> | [-> | [-> | ->]]] by lia;
      simpl; eauto.
Qed.

Lemma set_column_Some (k : nat) (v : list F) (m m' : ndarray2 F) :
  set_column k v m = Some m' ->
  (k < ncols m)%nat /\ length v = length (rows m)
  /\ ncols m' = ncols m /\ length (rows m') = length (rows m)
  /\ forall n, Forall (fun r => length r = n) (rows m) ->
               Forall (fun r => length r = n) (rows m').
Proof.
  unfold set_column. intros Hset.
  destruct (decide (k < ncols m)%nat) as [Hk|]; [| done].
  destruct (decide (length v = length (rows m))) as [Hv|]; [| done].
  injection Hset as <-. simpl. repeat split; [done | done | |].
  - rewrite length_zip_with. lia.
  - intros n Hrows. apply Forall_lookup. intros i r Hr.
    apply lookup_zip_with_Some in Hr as (row & c & -> & Hrow & _).
    rewrite length_insert. by eapply Forall_lookup_1 in Hrows.
Qed.

(** The loop keeps the shape of [partial]. *)
Lemma fill_columns_shape (c : partial_locals F) (L : list Z) :
  forall (k : nat) (m m' : ndarray2 F),
    fill_columns c k L m = Some m' ->
    ncols m' = ncols m /\ length (rows m') = length (rows m)
    /\ forall n, Forall (fun r => length r = n) (rows m) ->
                 Forall (fun r => length r = n) (rows m').
Proof.
  induction L as [|kp L IH]; intros k m m' Hfill; simpl in Hfill.
  - by injection Hfill as <-.
  - destruct (parts c kp) as [v|]; [| done]. simpl in Hfill.
    destruct (set_column k v m) as [m1|] eqn:Hset; [| done]. simpl in Hfill.
    apply set_column_Some in Hset as (_ & _ & Hc & Hr & Hrows).
    apply IH in Hfill as (Hc' & Hr' & Hrows').
    repeat split; [congruence | congruence | auto].
Qed.

(** The loop ends without an exception exactly when every key is one of
    [parts] and every position is a column of [partial]. *)
Lemma fill_columns_is_Some (c : partial_locals F) (N : nat) :
  (forall kp v, parts c kp = Some v -> length v = N) ->
  forall (L : list Z) (k : nat) (m : ndarray2 F),
    length (rows m) = N ->
    is_Some (fill_columns c k L m)
    <-> Forall (fun kp => (0 <= kp <= 3)%Z) L
        /\ (L = [] \/ (k + length L <= ncols m)%nat).
Proof.
  intros Hlen L. induction L as [|kp L IH]; intros k m Hm; simpl.
  - split; [intros _; split; [constructor | by left] | by eauto].
  - destruct (parts c kp) as [v|] eqn:Hparts; simpl.
    + assert (0 <= kp <= 3)%Z as Hkp by (apply (parts_is_Some c); eauto).
      destruct (set_column k v m) as [m1|] eqn:Hset; simpl.
      * apply set_column_Some in Hset as (Hk & _ & Hc & Hr & _).
        rewrite (IH (S k) m1) by congruence. rewrite Hc. split.
        -- intros [HL [-> | Hle]]; (split; [by constructor | right; simpl; lia]).
        -- intros [HL [? | Hle]]; [done |]. inversion HL; subst.
           split; [done |]. destruct L; [by left | right; simpl in *; lia].
      * split; [by intros [? ?] |]. intros [_ [? | Hle]]; [done |]. exfalso.
        unfold set_column in Hset. rewrite decide_True in Hset by lia.
        rewrite decide_True in Hset by (rewrite Hm; eauto). done.
    + split; [by intros [? ?] |]. intros [HL _]. inversion HL as [|? ? Hkp]; subst.
      apply (parts_is_Some c) in Hkp as [v Hv]. congruence.
Qed.

(** The parameters are read at the indices 0 to 3 and nowhere else. *)
Lemma baseResult_short (xdata params : list F) :
  (length params < 4)%nat -> baseResult xdata params = None.
Proof. intros Hlen. by destruct params as [|p0 [|p1 [|p2 [|p3 rest]]]]; simpl in *; try lia. Qed.

Lemma baseDerivative_short (xdata params : list F) :
  (length params < 4)%nat -> baseDerivative xdata params = None.
Proof. intros Hlen. by destruct params as [|p0 [|p1 [|p2 [|p3 rest]]]]; simpl in *; try lia. Qed.

Lemma basePartial_short {U} (uninit : nat -> nat -> F) (self : PositiveEtalonModel U)
    (xdata params : list F) (parlist : option (list Z)) :
  (length params < 4)%nat -> basePartial uninit self xdata params parlist = None.
Proof. intros Hlen. by destruct params as [|p0 [|p1 [|p2 [|p3 rest]]]]; simpl in *; try lia. Qed.

Lemma length_range (n : nat) : length (range n) = n.
Proof. unfold range. by rewrite length_fmap, length_seq. Qed.

Lemma Forall_range_keys (n : nat) :
  Forall (fun kp => (0 <= kp <= 3)%Z) (range n) <-> (n <= 4)%nat.
Proof.
  unfold range. rewrite Forall_fmap, Forall_seq. split.
  - intros Hall. destruct (decide (n <= 4)%nat) as [|Hn]; [done |].
    specialize (Hall 4%nat). simpl in Hall. lia.
  - intros Hn j Hj. simpl. lia.
Qed.

Lemma parts_length (p0 p1 p2 p3 : F) (xdata : list F) (kp : Z) (v : list F) :
  let x := phase xdata p2 p3 in
  let sx := np_sin x in
  let s2 := mul_aa sx sx in
  let dd := div_sa (of_int 1) (add_sa (of_int 1) (mul_sa (fmul p1 p1) s2)) in
  let d2 := mul_aa dd dd in
  let p3t :=
    mul_aa (mul_aa (mul_sa (fmul (fmul (fmul (of_int (-2)) p0) p1) p1) sx) (np_cos x)) d2 in
  parts {| l_xdata := xdata; l_p0 := p0; l_p1 := p1;
           l_s2 := s2; l_dd := dd; l_d2 := d2; l_p3 := p3t |} kp = Some v ->
  length v = length xdata.
Proof.
  intros x sx s2 dd d2 p3t Hv.
  assert (0 <= kp <= 3)%Z as Hkp by (eapply parts_is_Some; eauto).
  pose proof (parts_pointwise p0 p1 p2 p3 xdata kp Hkp) as Hpw. simpl in Hpw.
  subst x sx s2 dd d2 p3t. rewrite Hpw in Hv. injection Hv as <-.
  by rewrite length_fmap.
Qed.

(** X1: [baseResult] and [baseDerivative] raise exactly when the parameter
    vector has fewer than four entries; entries after the fourth are not
    read; and what they return has one value per sample. *)
Theorem X1_parameters_0_to_3 (xdata params rest : list F) (p0 p1 p2 p3 : F) :
  (is_Some (baseResult xdata params) <-> (4 <= length params)%nat)
  /\ (is_Some (baseDerivative xdata params) <-> (4 <= length params)%nat)
  /\ baseResult xdata ([p0; p1; p2; p3] ++ rest) = baseResult xdata [p0; p1; p2; p3]
  /\ baseDerivative xdata ([p0; p1; p2; p3] ++ rest) = baseDerivative xdata [p0; p1; p2; p3]
  /\ (exists v d, baseResult xdata [p0; p1; p2; p3] = Some v
                  /\ baseDerivative xdata [p0; p1; p2; p3] = Some d
                  /\ length v = length xdata /\ length d = length xdata).
Proof.
  repeat split; try done.
  - intros Hv. destruct (decide (4 <= length params)%nat) as [|Hn]; [done |].
    rewrite baseResult_short in Hv by lia. by destruct Hv.
  - intros Hlen. destruct params as [|q0 [|q1 [|q2 [|q3 more]]]]; simpl in Hlen; try lia.
    change (baseResult xdata (q0 :: q1 :: q2 :: q3 :: more))
      with (baseResult xdata [q0; q1; q2; q3]).
    rewrite baseResult_pointwise. eauto.
  - intros Hv. destruct (decide (4 <= length params)%nat) as [|Hn]; [done |].
    rewrite baseDerivative_short in Hv by lia. by destruct Hv.
  - intros Hlen. destruct params as [|q0 [|q1 [|q2 [|q3 more]]]]; simpl in Hlen; try lia.
    change (baseDerivative xdata (q0 :: q1 :: q2 :: q3 :: more))
      with (baseDerivative xdata [q0; q1; q2; q3]).
    rewrite baseDerivative_pointwise. eauto.
  - rewrite baseResult_pointwise, baseDerivative_pointwise.
    eexists _, _. repeat split; by rewrite length_fmap.
Qed.

Lemma basePartial_is_Some {U} (uninit : nat -> nat -> F) (self : PositiveEtalonModel U)
    (xdata params : list F) (parlist : option (list Z)) :
  is_Some (basePartial uninit self xdata params parlist)
  <-> (4 <= length params)%nat
      /\ match parlist with
         | Some L => Forall (fun kp => (0 <= kp <= 3)%Z) L
         | None => (npmax self <= 4)%nat /\ (npmax self <= npbase self)%nat
         end.
Proof.
  destruct (decide (4 <= length params)%nat) as [Hlen|Hlen].
  2:{ rewrite basePartial_short by lia. split; [by intros [? ?] | by intros [? _]]. }
  destruct params as [|p0 [|p1 [|p2 [|p3 rest]]]]; simpl in Hlen; try lia.
  unfold basePartial. simpl.
  rewrite (fill_columns_is_Some _ (length xdata)).
  - unfold numpy_ndarray; simpl. destruct parlist as [L|].
    + split; [by intros [HL _] | intros [_ HL]; split; [done | right; lia]].
    + rewrite Forall_range_keys, length_range. split.
      * intros [Hk [Hnil | Hle]]; (split; [done | split; [done |]]); [| lia].
        apply (f_equal length) in Hnil. rewrite length_range in Hnil. simpl in Hnil. lia.
      * intros [_ [Hk Hle]]. split; [done | right; lia].
  - intros kp v. apply parts_length.
  - unfold numpy_ndarray; simpl. by rewrite length_imap.
Qed.

(** X2: [basePartial] returns exactly when the parameter vector has four
    entries and, with a selection list, every key of the list is one of
    0, 1, 2, 3 (else [KeyError]); without one, the instance declares at most
    four parameters and no more than [partial] has columns (else [KeyError]
    or [IndexError]). *)
Theorem X2_basePartial_raises {U} (uninit : nat -> nat -> F)
    (self : PositiveEtalonModel U) (xdata params : list F) (parlist : option (list Z)) :
  is_Some (basePartial uninit self xdata params parlist)
  <-> (4 <= length params)%nat
      /\ match parlist with
         | Some L => Forall (fun kp => (0 <= kp <= 3)%Z) L
         | None => (npmax self <= 4)%nat /\ (npmax self <= npbase self)%nat
         end.
Proof. apply basePartial_is_Some. Qed.

(** X3: the matrix [basePartial] returns has one row per sample and one
    column per requested parameter (as many as the instance has, [npbase],
    without a selection list), and every row is that long; with no sample
    it has no row. *)
Theorem X3_basePartial_shape {U} (uninit : nat -> nat -> F)
    (self : PositiveEtalonModel U) (xdata params : list F) (parlist : option (list Z))
    (m : ndarray2 F)
    (Hm : basePartial uninit self xdata params parlist = Some m) :
  ncols m = match parlist with None => npbase self | Some L => length L end
  /\ length (rows m) = length xdata
  /\ Forall (fun r => length r = ncols m) (rows m).
Proof.
  assert (4 <= length params)%nat as Hlen.
  { apply (basePartial_is_Some uninit self xdata params parlist). eauto. }
  destruct params as [|p0 [|p1 [|p2 [|p3 rest]]]]; simpl in Hlen; try lia.
  unfold basePartial in Hm. simpl in Hm.
  apply fill_columns_shape in Hm as (Hc & Hr & Hrows).
  unfold numpy_ndarray in *; simpl in *. rewrite length_imap in Hr.
  repeat split; [done | done |]. rewrite Hc. apply Hrows.
  apply Forall_lookup. intros i r Hi.
  apply list_lookup_imap_Some in Hi as (x & _ & ->).
  by rewrite length_fmap, length_seq.
Qed.

Lemma basePartial_default_as_selection {U} (uninit : nat -> nat -> F)
    (self : PositiveEtalonModel U) (xdata params : list F) :
  npbase self = npmax self ->
  basePartial uninit self xdata params None
  = basePartial uninit self xdata params (Some (range (npmax self))).
Proof. intros Hb. unfold basePartial. by rewrite Hb, length_range. Qed.

Lemma basePartial_selection_uninit {U} (uninit uninit' : nat -> nat -> F)
    (self : PositiveEtalonModel U) (xdata params : list F) (L : list Z) :
  basePartial uninit self xdata params (Some L)
  = basePartial uninit' self xdata params (Some L).
Proof.
  destruct (decide ((4 <= length params)%nat /\ Forall (fun kp => (0 <= kp <= 3)%Z) L))
    as [[Hlen HL]|Hno].
  - destruct params as [|p0 [|p1 [|p2 [|p3 rest]]]]; simpl in Hlen; try lia.
    change (basePartial uninit self xdata [p0; p1; p2; p3] (Some L)
            = basePartial uninit' self xdata [p0; p1; p2; p3] (Some L)).
    by rewrite !basePartial_pointwise.
  - pose proof (basePartial_is_Some uninit self xdata params (Some L)) as H1.
    pose proof (basePartial_is_Some uninit' self xdata params (Some L)) as H2.
    destruct (basePartial uninit self xdata params (Some L)) as [m|];
      [exfalso; apply Hno, H1; eauto |].
    destruct (basePartial uninit' self xdata params (Some L)) as [m|];
      [exfalso; apply Hno, H2; eauto | done].
Qed.

(** X4: what [basePartial] returns does not depend on what was in the memory
    that [numpy.ndarray] handed out: with a selection list every column is
    written, and so it is without one when the instance has as many
    parameters as [partial] has columns. *)
Theorem X4_no_uninitialised_cell {U} (uninit uninit' : nat -> nat -> F)
    (self : PositiveEtalonModel U) (xdata params : list F) (parlist : option (list Z))
    (Hpar : match parlist with None => npbase self = npmax self | Some _ => True end) :
  basePartial uninit self xdata params parlist
  = basePartial uninit' self xdata params parlist.
Proof.
  destruct parlist as [L|].
  - apply basePartial_selection_uninit.
  - rewrite !basePartial_default_as_selection by done. apply basePartial_selection_uninit.
Qed.

(** X5: in every arithmetic, the column for the frequency p2 is
    [math.pi * xdata] times the column for the phase p3, entry by entry. *)
Theorem X5_frequency_column {U} (uninit : nat -> nat -> F)
    (self : PositiveEtalonModel U) (p0 p1 p2 p3 : F) (xdata : list F) :
  exists (m : ndarray2 F) (c2 c3 : list F),
    basePartial uninit self xdata [p0; p1; p2; p3] (Some [2; 3]%Z) = Some m
    /\ column 0 m = Some c2
    /\ column 1 m = Some c3
    /\ c2 = mul_aa (mul_sa math_pi xdata) c3.
Proof.
  eexists _, _, _. rewrite basePartial_pointwise by (repeat constructor; lia).
  split; [done |].
  split; [by apply (column_pointwise _ _ [2; 3]%Z _ 0 2%Z) |].
  split; [by apply (column_pointwise _ _ [2; 3]%Z _ 1 3%Z) |].
  unfold mul_aa, mul_sa. by rewrite zip_with_fmap_same.
Qed.
End Edges.

Lemma X3_basePartial_shape_witness :
  exists m : ndarray2 R,
    basePartial (fun _ _ => 7%R) self4 [0%R; 1%R] [1%R; 1%R; 1%R; 0%R] (Some [3; 0]%Z) = Some m
    /\ ncols m = 2%nat
    /\ length (rows m) = 2%nat
    /\ Forall (fun r => length r = ncols m) (rows m).
Proof.
  eexists. split; [apply basePartial_pointwise; repeat constructor; lia |].
  apply (X3_basePartial_shape (fun _ _ => 7%R) self4 [0%R; 1%R] [1%R; 1%R; 1%R; 0%R]
           (Some [3; 0]%Z)).
  apply basePartial_pointwise; repeat constructor; lia.
Defined.

Lemma X4_no_uninitialised_cell_witness :
  basePartial (fun _ _ => 7%R) self4 [0%R; 1%R] [1%R; 1%R; 1%R; 0%R] None
  = basePartial (fun _ _ => 8%R) self4 [0%R; 1%R] [1%R; 1%R; 1%R; 0%R] None.
Proof.
  apply (X4_no_uninitialised_cell (fun _ _ => 7%R) (fun _ _ => 8%R) self4
           [0%R; 1%R] [1%R; 1%R; 1%R; 0%R] None).
  reflexivity.
Defined.

(** ** More on the real-number reading *)

Lemma value_at_derivable (p0 p1 p2 p3 x : R) :
  derivable_pt_lim (fun u => value_at p0 p1 p2 p3 u) x (derivative_at p0 p1 p2 p3 x).
Proof.
  rewrite derivative_at_formula.
  eapply derivable_pt_lim_ext; [| apply derivative_is_derivative].
  intros z. symmetry. apply value_at_formula.
Qed.

(** X6: what [baseDerivative] returns is the derivative of what [baseResult]
    returns, taken with respect to the sample: one function gives the value
    at every sample, one the slope, and the second is the derivative of the
    first everywhere. *)
Theorem X6_derivative_of_value (p0 p1 p2 p3 : R) :
  exists f d : R -> R,
    (forall xdata, baseResult xdata [p0; p1; p2; p3] = Some (f <$> xdata)
                   /\ baseDerivative xdata [p0; p1; p2; p3] = Some (d <$> xdata))
    /\ forall x, derivable_pt_lim f x (d x).
Proof.
  exists (value_at p0 p1 p2 p3), (derivative_at p0 p1 p2 p3). split.
  - intros xdata. by rewrite baseResult_pointwise, baseDerivative_pointwise.
  - intros x. apply value_at_derivable.
Qed.

(** X7: the four columns of [basePartial] are the derivatives of the value
    at the sample with respect to the amplitude p0, to p1, to the frequency
    p2 and to the phase p3. *)
Theorem X7_partials_of_value {U} (uninit : nat -> nat -> R)
    (self : PositiveEtalonModel U) (p0 p1 p2 p3 : R) :
  exists d0 d1 d2 d3 : R -> R,
    (forall xdata,
       basePartial uninit self xdata [p0; p1; p2; p3] (Some [0; 1; 2; 3]%Z)
       = Some (Ndarray2 4 ((fun x => [d0 x; d1 x; d2 x; d3 x]) <$> xdata)))
    /\ forall x,
         derivable_pt_lim (fun u => value_at u p1 p2 p3 x) p0 (d0 x)
         /\ derivable_pt_lim (fun u => value_at p0 u p2 p3 x) p1 (d1 x)
         /\ derivable_pt_lim (fun u => value_at p0 p1 u p3 x) p2 (d2 x)
         /\ derivable_pt_lim (fun u => value_at p0 p1 p2 u x) p3 (d3 x).
Proof.
  exists (partial_at p0 p1 p2 p3 0), (partial_at p0 p1 p2 p3 1),
    (partial_at p0 p1 p2 p3 2), (partial_at p0 p1 p2 p3 3). split.
  - intros xdata. by rewrite basePartial_pointwise by (repeat constructor; lia).
  - intros x. destruct (partial_at_formula p0 p1 p2 p3 x) as (E0 & E1 & E2 & E3).
    rewrite E0, E1, E2, E3. repeat split.
    + eapply derivable_pt_lim_ext; [| apply d_p0_is_derivative].
      intros z. symmetry. apply value_at_formula.
    + eapply derivable_pt_lim_ext; [| apply d_p1_is_derivative].
      intros z. symmetry. apply value_at_formula.
    + eapply derivable_pt_lim_ext; [| apply d_p2_is_derivative].
      intros z. symmetry. apply value_at_formula.
    + eapply derivable_pt_lim_ext; [| apply d_p3_is_derivative].
      intros z. symmetry. apply value_at_formula.
Qed.

(** X8: the value is the amplitude p0 times the column of [basePartial] for
    the amplitude. *)
Theorem X8_linear_in_amplitude {U} (uninit : nat -> nat -> R)
    (self : PositiveEtalonModel U) (p0 p1 p2 p3 : R) (xdata : list R) :
  exists (v : list R) (m : ndarray2 R) (c0 : list R),
    baseResult xdata [p0; p1; p2; p3] = Some v
    /\ basePartial uninit self xdata [p0; p1; p2; p3] (Some [0]%Z) = Some m
    /\ column 0 m = Some c0
    /\ v = (fun c => (p0 * c)%R) <$> c0.
Proof.
  eexists _, _, _. rewrite baseResult_pointwise.
  rewrite basePartial_pointwise by (repeat constructor; lia).
  split; [done |]. split; [done |].
  split; [by apply (column_pointwise _ _ [0]%Z _ 0 0%Z) |].
  rewrite <- list_fmap_compose. apply list_fmap_ext; intros i x _.
  unfold value_at, partial_at, phase_at; simpl. unfold Rdiv.
  replace (p1 * p1 * sin (PI * x * p2 + p3) * sin (PI * x * p2 + p3))%R
    with (p1 * p1 * (sin (PI * x * p2 + p3) * sin (PI * x * p2 + p3)))%R by ring.
  ring.
Qed.

(** X9: every value lies, in absolute value, between |p0| / (1 + p1^2) and
    |p0|. *)
Theorem X9_value_range (p0 p1 p2 p3 : R) (xdata : list R) :
  exists v : list R,
    baseResult xdata [p0; p1; p2; p3] = Some v
    /\ Forall (fun y => (Rabs p0 / (1 + p1 ^ 2) <= Rabs y <= Rabs p0)%R) v.
Proof.
  eexists. split; [apply baseResult_formula |].
  apply Forall_fmap, Forall_forall. intros x _; unfold compose; cbv beta.
  set (s := sin (PI * x * p2 + p3)).
  pose proof (denom_ge_1 p1 s) as Hd.
  split; [| apply quotient_bounded, Hd].
  assert (s ^ 2 <= 1)%R as Hs.
  { pose proof (SIN_bound (PI * x * p2 + p3)) as [Hlo Hhi]. fold s in Hlo, Hhi. nra. }
  assert (1 + p1 ^ 2 * s ^ 2 <= 1 + p1 ^ 2)%R as Hle.
  { pose proof (pow2_ge_0 p1). nra. }
  unfold Rdiv. rewrite Rabs_mult, Rabs_inv, (Rabs_pos_eq (1 + p1 ^ 2 * s ^ 2)) by lra.
  apply Rmult_le_compat_l; [apply Rabs_pos |].
  apply Rinv_le_contravar; lra.
Qed.

(** X10: for a frequency p2 other than 0 the value and the slope have the
    period 1 / p2 in the sample. *)
Theorem X10_period_in_x (p0 p1 p2 p3 : R) (xdata : list R) (Hp2 : p2 <> 0%R) :
  baseResult ((fun x => (x + 1 / p2)%R) <$> xdata) [p0; p1; p2; p3]
  = baseResult xdata [p0; p1; p2; p3]
  /\ baseDerivative ((fun x => (x + 1 / p2)%R) <$> xdata) [p0; p1; p2; p3]
     = baseDerivative xdata [p0; p1; p2; p3].
Proof.
  rewrite !baseResult_pointwise, !baseDerivative_pointwise, <- !list_fmap_compose.
  assert (forall x, phase_at p2 p3 (x + 1 / p2)%R = (phase_at p2 p3 x + PI)%R) as Hph.
  { intros x. unfold phase_at; simpl. by field. }
  split; f_equal; apply list_fmap_ext; intros i x _; unfold compose; cbv beta.
  - unfold value_at. cbv zeta. rewrite Hph, neg_sin. simpl. f_equal. ring.
  - unfold derivative_at. cbv zeta. rewrite Hph, neg_sin, neg_cos. simpl.
    unfold Rdiv. f_equal; [ring | f_equal; ring].
Qed.

Lemma X10_period_in_x_witness :
  baseResult ((fun x => (x + 1 / 2)%R) <$> [0%R; 3%R]) [1%R; 30%R; 2%R; 0%R]
  = baseResult [0%R; 3%R] [1%R; 30%R; 2%R; 0%R]
  /\ baseDerivative ((fun x => (x + 1 / 2)%R) <$> [0%R; 3%R]) [1%R; 30%R; 2%R; 0%R]
     = baseDerivative [0%R; 3%R] [1%R; 30%R; 2%R; 0%R].
Proof. apply (X10_period_in_x 1 30 2 0 [0%R; 3%R]). lra. Defined.

(** ** More on the binary64 reading *)

(** The same for a single sign. *)
Lemma SFmul_opp_r (a b : spec_float) :
  SFmul prec emax a (SFopp b) = SFopp (SFmul prec emax a b).
Proof.
  destruct a as [[]|[]| |[] ma ea], b as [[]|[]| |[] mb eb]; try reflexivity;
    unfold SFmul, SFopp, binary_round_aux; simpl;
    repeat match goal with |- context [let '(_, _) := ?t in _] => destruct t end;
    repeat match goal with |- context [match ?t with _ => _ end] => destruct t end;
    reflexivity.
Qed.

Lemma SFmul_opp_l (a b : spec_float) :
  SFmul prec emax (SFopp a) b = SFopp (SFmul prec emax a b).
Proof.
  destruct a as [[]|[]| |[] ma ea], b as [[]|[]| |[] mb eb]; try reflexivity;
    unfold SFmul, SFopp, binary_round_aux; simpl;
    repeat match goal with |- context [let '(_, _) := ?t in _] => destruct t end;
    repeat match goal with |- context [match ?t with _ => _ end] => destruct t end;
    reflexivity.
Qed.

Lemma mul_opp_r (x y : float) : (x * (- y) = - (x * y))%float.
Proof. apply Prim2SF_inj. rewrite opp_spec, !mul_spec, !opp_spec. apply SFmul_opp_r. Qed.

Lemma mul_opp_l (x y : float) : ((- x) * y = - (x * y))%float.
Proof. apply Prim2SF_inj. rewrite opp_spec, !mul_spec, !opp_spec. apply SFmul_opp_l. Qed.

(** X11: on doubles, and whatever the mathematical library, the sign of p1
    cannot be seen in what [baseResult] and [baseDerivative] return, nor in
    the columns of [basePartial] for p0, p2 and p3: they are the same doubles
    for p1 and for - p1.  The column for p1 changes its sign and nothing
    else. *)
Theorem X11_sign_of_p1_on_doubles {U} (libm_sin libm_cos : float -> float)
    (uninit : nat -> nat -> float) (self : PositiveEtalonModel U)
    (p0 p1 p2 p3 : float) (xdata : list float) :
  let ops := binary64_ops libm_sin libm_cos in
  @baseResult float ops xdata [p0; (- p1)%float; p2; p3]
  = @baseResult float ops xdata [p0; p1; p2; p3]
  /\ @baseDerivative float ops xdata [p0; (- p1)%float; p2; p3]
     = @baseDerivative float ops xdata [p0; p1; p2; p3]
  /\ @basePartial float ops uninit U self xdata [p0; (- p1)%float; p2; p3] (Some [0; 2; 3]%Z)
     = @basePartial float ops uninit U self xdata [p0; p1; p2; p3] (Some [0; 2; 3]%Z)
  /\ exists (m m' : ndarray2 float) (c c' : list float),
       @basePartial float ops uninit U self xdata [p0; p1; p2; p3] (Some [1]%Z) = Some m
       /\ @basePartial float ops uninit U self xdata [p0; (- p1)%float; p2; p3] (Some [1]%Z)
          = Some m'
       /\ column 0 m = Some c /\ column 0 m' = Some c'
       /\ c' = PrimFloat.opp <$> c.
Proof.
  cbv zeta.
  rewrite !baseResult_pointwise, !baseDerivative_pointwise.
  rewrite !basePartial_pointwise by (repeat constructor; lia).
  assert (forall a, (a * (- p1) * (- p1) = a * p1 * p1)%float) as Hsq.
  { intros a. by rewrite (mul_opp_r a p1), mul_opp_opp. }
  repeat split.
  - f_equal. apply list_fmap_ext; intros i x _.
    unfold value_at; simpl. by rewrite mul_opp_opp.
  - f_equal. apply list_fmap_ext; intros i x _.
    unfold derivative_at; simpl. by rewrite mul_opp_opp, Hsq.
  - do 2 f_equal. apply list_fmap_ext; intros i x _.
    unfold partial_at; simpl. by rewrite mul_opp_opp, Hsq.
  - eexists _, _, _, _. split; [done |]. split; [done |].
    split; [by apply (column_pointwise _ _ [1]%Z _ 0 1%Z) |].
    split; [by apply (column_pointwise _ _ [1]%Z _ 0 1%Z) |].
    rewrite <- list_fmap_compose. apply list_fmap_ext; intros i x _.
    unfold partial_at; simpl. by rewrite mul_opp_opp, mul_opp_r, !mul_opp_l.
Qed.

(** ** The object-level runs and the value-level functions *)

Section Runs.
Context {F : Type} `{Float64Ops F} {U : Type}.

(** X12: called on an array of samples and an array of parameters,
    [baseResult] and [baseDerivative] return a new array that holds what the
    value-level function gives, and raise when that function fails (a
    parameter vector that is too short). *)
Theorem X12_value_and_slope_runs (self xdata params : loc) (h : store F U)
    (xs ps : list F)
    (Hxdata : h !! xdata = Some (OArray xs))
    (Hparams : h !! params = Some (OArray ps)) :
  match baseResult xs ps with
  | Some v => exists out h', baseResult_obj self xdata params h = (Ok out, h')
                             /\ h !! out = None /\ h' !! out = Some (OArray v)
  | None => exists e h', baseResult_obj self xdata params h = (Raise e, h')
  end
  /\ match baseDerivative xs ps with
     | Some v => exists out h', baseDerivative_obj self xdata params h = (Ok out, h')
                                /\ h !! out = None /\ h' !! out = Some (OArray v)
     | None => exists e h', baseDerivative_obj self xdata params h = (Raise e, h')
     end.
Proof.
  split.
  - pose proof (baseResult_obj_agrees self xdata params h) as Hc.
    unfold wp, agrees in Hc.
    destruct (baseResult_obj self xdata params h) as [[out|ex] h']; simpl in Hc.
    + destruct Hc as (_ & Hout & v & Hv & Hspec). rewrite (Hspec _ _ Hxdata Hparams).
      exists out, h'. split; [done |]. split; [by apply not_elem_of_dom | done].
    + destruct Hc as [_ Hspec]. rewrite (Hspec _ _ Hxdata Hparams). by exists ex, h'.
  - pose proof (baseDerivative_obj_agrees self xdata params h) as Hc.
    unfold wp, agrees in Hc.
    destruct (baseDerivative_obj self xdata params h) as [[out|ex] h']; simpl in Hc.
    + destruct Hc as (_ & Hout & v & Hv & Hspec). rewrite (Hspec _ _ Hxdata Hparams).
      exists out, h'. split; [done |]. split; [by apply not_elem_of_dom | done].
    + destruct Hc as [_ Hspec]. rewrite (Hspec _ _ Hxdata Hparams). by exists ex, h'.
Qed.

(** X13: called on an instance, an array of samples, an array of parameters
    and, if there is one, a list of indices, [basePartial] returns a new
    matrix that holds what the value-level function gives, and raises when
    that function fails. *)
Theorem X13_partial_runs (uninit : nat -> nat -> F) (self xdata params : loc)
    (parlist : option loc) (h : store F U)
    (me : PositiveEtalonModel U) (xs ps : list F) (selection : option (list Z))
    (Hself : h !! self = Some (OModel me))
    (Hxdata : h !! xdata = Some (OArray xs))
    (Hparams : h !! params = Some (OArray ps))
    (Hparlist : match parlist, selection with
                | None, None => True
                | Some pl, Some L => h !! pl = Some (OIndices L)
                | _, _ => False
                end) :
  match basePartial uninit me xs ps selection with
  | Some m => exists out h',
                basePartial_obj uninit self xdata params parlist h = (Ok out, h')
                /\ h !! out = None /\ h' !! out = Some (OMatrix m)
  | None => exists e h', basePartial_obj uninit self xdata params parlist h = (Raise e, h')
  end.
Proof.
  destruct parlist as [pl|], selection as [L|]; try done.
  - pose proof (basePartial_obj_selection_agrees uninit self xdata params pl h) as Hc.
    unfold wp, agrees in Hc.
    destruct (basePartial_obj uninit self xdata params (Some pl) h) as [[out|ex] h'];
      simpl in Hc.
    + destruct Hc as (_ & Hout & v & Hv & Hspec).
      rewrite (Hspec _ me _ _ _ Hparlist Hxdata Hparams).
      exists out, h'. split; [done |]. split; [by apply not_elem_of_dom | done].
    + destruct Hc as [_ Hspec]. rewrite (Hspec _ me _ _ _ Hparlist Hxdata Hparams).
      by exists ex, h'.
  - pose proof (basePartial_obj_default_agrees uninit self xdata params h) as Hc.
    unfold wp, agrees in Hc.
    destruct (basePartial_obj uninit self xdata params None h) as [[out|ex] h'];
      simpl in Hc.
    + destruct Hc as (_ & Hout & v & Hv & Hspec).
      rewrite (Hspec _ _ _ Hself Hxdata Hparams).
      exists out, h'. split; [done |]. split; [by apply not_elem_of_dom | done].
    + destruct Hc as [_ Hspec]. rewrite (Hspec _ _ _ Hself Hxdata Hparams).
      by exists ex, h'.
Qed.
End Runs.

Lemma X12_value_and_slope_runs_witness :
  (exists out h',
     baseResult_obj 3%positive 1%positive 2%positive example_store = (Ok out, h')
     /\ example_store !! out = None
     /\ h' !! out = Some (OArray (value_at 1%R 30%R 1%R 0%R <$> [0%R; 1%R])))
  /\ (exists out h',
        baseDerivative_obj 3%positive 1%positive 2%positive example_store = (Ok out, h')
        /\ example_store !! out = None
        /\ h' !! out = Some (OArray (derivative_at 1%R 30%R 1%R 0%R <$> [0%R; 1%R]))).
Proof.
  pose proof (X12_value_and_slope_runs 3%positive 1%positive 2%positive example_store
                [0%R; 1%R] [1%R; 30%R; 1%R; 0%R] eq_refl eq_refl) as Hrun.
  rewrite baseResult_pointwise, baseDerivative_pointwise in Hrun. exact Hrun.
Defined.

Lemma X13_partial_runs_witness :
  exists out h',
    basePartial_obj (fun _ _ => 7%R) 3%positive 1%positive 2%positive
      (Some 4%positive) example_store = (Ok out, h')
    /\ example_store !! out = None
    /\ h' !! out
       = Some (OMatrix (Ndarray2 2
                 ((fun x => (fun kp => partial_at 1%R 30%R 1%R 0%R kp x) <$> [3; 0]%Z)
                    <$> [0%R; 1%R]))).
Proof.
  pose proof (X13_partial_runs (fun _ _ => 7%R) 3%positive 1%positive 2%positive
                (Some 4%positive) example_store self4 [0%R; 1%R] [1%R; 30%R; 1%R; 0%R]
                (Some [3; 0]%Z) eq_refl eq_refl eq_refl eq_refl) as Hrun.
  rewrite basePartial_pointwise in Hrun by (repeat constructor; lia). exact Hrun.
Defined.

(** ** Samples do not see each other *)

(** X14: in every arithmetic, the methods work sample by sample: on two
    arrays of samples put end to end they return the two results put end to
    end (for [basePartial], the rows). *)
Theorem X14_sample_by_sample {F : Type} `{Float64Ops F} {U}
    (uninit uninit1 uninit2 : nat -> nat -> F) (self : PositiveEtalonModel U)
    (p0 p1 p2 p3 : F) (xs ys : list F) :
  (exists v w, baseResult xs [p0; p1; p2; p3] = Some v
               /\ baseResult ys [p0; p1; p2; p3] = Some w
               /\ baseResult (xs ++ ys) [p0; p1; p2; p3] = Some (v ++ w))
  /\ (exists v w, baseDerivative xs [p0; p1; p2; p3] = Some v
                  /\ baseDerivative ys [p0; p1; p2; p3] = Some w
                  /\ baseDerivative (xs ++ ys) [p0; p1; p2; p3] = Some (v ++ w))
  /\ (exists m n mn,
        basePartial uninit1 self xs [p0; p1; p2; p3] (Some [0; 1; 2; 3]%Z) = Some m
        /\ basePartial uninit2 self ys [p0; p1; p2; p3] (Some [0; 1; 2; 3]%Z) = Some n
        /\ basePartial uninit self (xs ++ ys) [p0; p1; p2; p3] (Some [0; 1; 2; 3]%Z)
           = Some mn
        /\ rows mn = rows m ++ rows n).
Proof.
  rewrite !baseResult_pointwise, !baseDerivative_pointwise.
  rewrite !basePartial_pointwise by (repeat constructor; lia).
  repeat split.
  - eexists _, _. by rewrite fmap_app.
  - eexists _, _. by rewrite fmap_app.
  - eexists _, _, _. repeat split. simpl. by rewrite fmap_app.
Qed.

(** ** Peaks and troughs *)

Lemma sin_int_PI (k : Z) : sin (IZR k * PI) = 0%R.
Proof. apply sin_eq_0_1. by exists k. Qed.

(** X15: with the phase 0, a sample x for which x * p2 is an integer is a
    peak: the value is the amplitude p0 and the slope is 0. *)
Theorem X15_peaks (p0 p1 p2 x : R) (k : Z) (Hk : (x * p2)%R = IZR k) :
  baseResult [x] [p0; p1; p2; 0%R] = Some [p0]
  /\ baseDerivative [x] [p0; p1; p2; 0%R] = Some [0%R].
Proof.
  rewrite baseResult_pointwise, baseDerivative_pointwise. simpl.
  unfold value_at, derivative_at, phase_at; simpl.
  replace (PI * x * p2 + 0)%R with (IZR k * PI)%R by (rewrite <- Hk; ring).
  rewrite sin_int_PI. split; do 2 f_equal; field.
Qed.

Lemma X15_peaks_witness :
  baseResult [3%R] [1%R; 30%R; 2%R; 0%R] = Some [1%R]
  /\ baseDerivative [3%R] [1%R; 30%R; 2%R; 0%R] = Some [0%R].
Proof. apply (X15_peaks 1 30 2 3 6). simpl. lra. Defined.

(** X16: with the phase 0, a sample x for which x * p2 is an integer and a
    half is a trough: the value is p0 / (1 + p1^2) and the slope is 0. *)
Theorem X16_troughs (p0 p1 p2 x : R) (k : Z) (Hk : (x * p2)%R = (IZR k + 1 / 2)%R) :
  baseResult [x] [p0; p1; p2; 0%R] = Some [(p0 / (1 + p1 ^ 2))%R]
  /\ baseDerivative [x] [p0; p1; p2; 0%R] = Some [0%R].
Proof.
  rewrite baseResult_pointwise, baseDerivative_pointwise. simpl.
  unfold value_at, derivative_at, phase_at; simpl.
  replace (PI * x * p2 + 0)%R with (IZR k * PI + PI / 2)%R
    by (replace (PI * x * p2)%R with (PI * (x * p2))%R by ring; rewrite Hk; field).
  assert (cos (IZR k * PI + PI / 2) = 0)%R as Hcos by (apply cos_eq_0_1; by exists k).
  pose proof (sin2_cos2 (IZR k * PI + PI / 2)) as Hsc.
  rewrite Hcos in Hsc. unfold Rsqr in Hsc.
  set (s := sin (IZR k * PI + PI / 2)) in *.
  assert (s * s = 1)%R as Hs by lra.
  split; do 2 f_equal.
  - replace (p1 * p1 * s * s)%R with (p1 * p1 * (s * s))%R by ring. rewrite Hs.
    f_equal. ring.
  - rewrite Hcos. unfold Rdiv. ring.
Qed.

Lemma X16_troughs_witness :
  baseResult [0.5%R] [1%R; 30%R; 1%R; 0%R] = Some [(1 / (1 + 30 ^ 2))%R]
  /\ baseDerivative [0.5%R] [1%R; 30%R; 1%R; 0%R] = Some [0%R].
Proof. apply (X16_troughs 1 30 1 0.5 0). simpl. lra. Defined.

(** ** Overflow on doubles *)

Lemma Prim2SF_infinity : Prim2SF infinity = S754_infinity false.
Proof. reflexivity. Qed.

Lemma Prim2SF_one : Prim2SF 1%float = S754_finite false 4503599627370496 (-52).
Proof. vm_compute. reflexivity. Qed.

Lemma Prim2SF_zero : Prim2SF zero = S754_zero false.
Proof. reflexivity. Qed.

Lemma float_of_int_1 : float_of_int 1 = 1%float.
Proof. vm_compute. reflexivity. Qed.

Lemma is_zero_Prim2SF (x : float) :
  is_zero x = true -> exists b, Prim2SF x = S754_zero b.
Proof.
  unfold is_zero. rewrite FloatAxioms.eqb_spec, Prim2SF_zero.
  destruct (Prim2SF x) as [b|b| |b m e]; try discriminate; eauto.
  all: try (destruct b; discriminate).
Qed.

Lemma is_finite_cases (x : float) :
  is_finite x = true ->
  (exists b, Prim2SF x = S754_zero b) \/ exists b m e, Prim2SF x = S754_finite b m e.
Proof.
  unfold is_finite, is_nan, is_infinity.
  rewrite !FloatAxioms.eqb_spec, abs_spec, Prim2SF_infinity.
  destruct (Prim2SF x) as [b|b| |b m e]; simpl; try discriminate; eauto.
  all: try (destruct b; discriminate).
Qed.

Lemma is_finite_Prim2SF (x : float) :
  is_finite x = true -> is_zero x = false ->
  exists b m e, Prim2SF x = S754_finite b m e.
Proof.
  intros Hf Hz. destruct (is_finite_cases x Hf) as [[b Hb] | Hfin]; [| done].
  unfold is_zero in Hz. rewrite FloatAxioms.eqb_spec, Prim2SF_zero, Hb in Hz.
  destruct b; discriminate.
Qed.

Lemma overflow_zero (p0 q sx : float) :
  q = infinity -> is_zero sx = true -> (p0 / (1 + q * sx * sx))%float = nan.
Proof.
  intros -> Hz. apply is_zero_Prim2SF in Hz as [b Hb].
  apply Prim2SF_inj.
  rewrite div_spec, add_spec, !mul_spec, Hb, Prim2SF_infinity, Prim2SF_one.
  destruct (Prim2SF p0) as [[]|[]| |[] ? ?], b; reflexivity.
Qed.

Lemma overflow_nonzero (p0 q sx : float) :
  q = infinity -> is_finite sx = true -> is_zero sx = false -> is_finite p0 = true ->
  is_zero (p0 / (1 + q * sx * sx))%float = true.
Proof.
  intros -> Hf Hz Hp. apply is_finite_Prim2SF in Hf as (b & m & e & Hb); [| done].
  unfold is_zero.
  rewrite FloatAxioms.eqb_spec, div_spec, add_spec, !mul_spec, Hb, Prim2SF_infinity,
    Prim2SF_one, Prim2SF_zero.
  apply is_finite_cases in Hp as [[c ->] | (c & mp & ep & ->)];
    destruct b, c; reflexivity.
Qed.

(** X17: on doubles, when [params[1] * params[1]] overflows to infinity, the
    value at a sample is NaN where the sine of the phase is a zero, and a
    zero where the sine is any other finite number and the amplitude is
    finite. *)
Theorem X17_overflow_on_doubles (libm_sin libm_cos : float -> float)
    (p0 p1 p2 p3 x : float) (Hover : (p1 * p1)%float = infinity) :
  let ops := binary64_ops libm_sin libm_cos in
  let sx := libm_sin (@phase_at float ops p2 p3 x) in
  (is_zero sx = true -> @baseResult float ops [x] [p0; p1; p2; p3] = Some [nan])
  /\ (is_finite sx = true -> is_zero sx = false -> is_finite p0 = true ->
      exists v, @baseResult float ops [x] [p0; p1; p2; p3] = Some [v]
                /\ is_zero v = true).
Proof.
  cbv zeta. rewrite baseResult_pointwise. simpl.
  unfold value_at; simpl. rewrite float_of_int_1. split.
  - intros Hz. do 2 f_equal. by apply overflow_zero.
  - intros Hf Hz Hp. eexists. split; [done |]. by apply overflow_nonzero.
Qed.

Lemma X17_overflow_on_doubles_witness :
  let p1 := 0x1.4e718d7d7625ap+664%float in
  let ops := binary64_ops (fun t => t) (fun t => t) in
  let sx := (@phase_at float ops 1 0 0)%float in
  (is_zero sx = true -> @baseResult float ops [0%float] [1%float; p1; 1%float; 0%float]
                        = Some [nan])
  /\ (is_finite sx = true -> is_zero sx = false -> is_finite 1%float = true ->
      exists v, @baseResult float ops [0%float] [1%float; p1; 1%float; 0%float] = Some [v]
                /\ is_zero v = true).
Proof.
  apply (X17_overflow_on_doubles (fun t => t) (fun t => t) 1 0x1.4e718d7d7625ap+664 1 0 0)%float.
  vm_compute. reflexivity.
Defined.

(** ** Rounding on doubles *)

(** What follows reads the rounding of the IEEE-754 operations off their
    specification ([SpecFloat]): the mantissa is shifted right to the
    canonical exponent, rounded to nearest even, and shifted once more if
    the rounding carried. *)

Section Rounding.
Local Open Scope Z_scope.

(** The number of binary digits. *)
Lemma digits2_pos_log2 (p : positive) : Zpos (digits2_pos p) = Z.log2 (Zpos p) + 1.
Proof.
  induction p as [p IH | p IH |]; [| | reflexivity].
  - change (digits2_pos p~1) with (Pos.succ (digits2_pos p)).
    rewrite Pos2Z.inj_succ, IH.
    change (Z.pos p~1) with (2 * Z.pos p + 1). rewrite Z.log2_succ_double by lia. lia.
  - change (digits2_pos p~0) with (Pos.succ (digits2_pos p)).
    rewrite Pos2Z.inj_succ, IH.
    change (Z.pos p~0) with (2 * Z.pos p). rewrite Z.log2_double by lia. lia.
Qed.

Lemma Zdigits2_log2 (m : Z) : 0 < m -> Zdigits2 m = Z.log2 m + 1.
Proof. destruct m as [|p|p]; try lia. intros _. apply digits2_pos_log2. Qed.

Lemma Zdigits2_bounds (m : Z) :
  0 < m -> 2 ^ (Zdigits2 m - 1) <= m < 2 ^ Zdigits2 m.
Proof.
  intros Hm. rewrite Zdigits2_log2 by lia.
  replace (Z.log2 m + 1 - 1) with (Z.log2 m) by lia.
  replace (Z.log2 m + 1) with (Z.succ (Z.log2 m)) by lia.
  apply Z.log2_spec; lia.
Qed.

Lemma Zdigits2_nonneg (m : Z) : 0 <= Zdigits2 m.
Proof. destruct m; simpl; lia. Qed.

(** A right shift by one bit halves the mantissa, and drops nothing when
    the mantissa is even. *)
Lemma shr_1_m (mrs : shr_record) :
  0 <= shr_m mrs -> shr_m (shr_1 mrs) = shr_m mrs / 2.
Proof.
  destruct mrs as [m r s]; simpl. intros Hm.
  destruct m as [|[p|p|]|p]; cbn [shr_1 shr_m]; try lia; try reflexivity.
  - apply Z.div_unique with 1; lia.
  - apply Z.div_unique with 0; lia.
Qed.

Lemma shr_1_exact (mrs : shr_record) :
  0 <= shr_m mrs -> inexact mrs = false -> (2 | shr_m mrs) ->
  inexact (shr_1 mrs) = false.
Proof.
  destruct mrs as [m r s]; unfold inexact; simpl. intros Hm Hi [k Hk].
  destruct m as [|[p|p|]|p]; simpl; try lia; rewrite Hi; reflexivity.
Qed.

(** The same for a shift by [p] bits. *)
Lemma iter_pos_shr_1_m (p : positive) (mrs : shr_record) :
  0 <= shr_m mrs ->
  shr_m (SpecFloat.iter_pos shr_1 p mrs) = shr_m mrs / 2 ^ Zpos p.
Proof.
  revert mrs. induction p as [p IH | p IH |]; intros mrs Hm; simpl SpecFloat.iter_pos.
  - assert (0 <= shr_m (shr_1 mrs)) by (rewrite shr_1_m by lia; apply Z.div_pos; lia).
    assert (0 <= shr_m (SpecFloat.iter_pos shr_1 p (shr_1 mrs)))
      by (rewrite IH by lia; apply Z.div_pos; lia).
    rewrite IH, IH, shr_1_m by lia.
    rewrite !Z.div_div by lia. f_equal.
    change (Z.pos p~1) with (2 * Z.pos p + 1).
    replace (2 * Z.pos p + 1) with (1 + Z.pos p + Z.pos p) by lia.
    rewrite !Z.pow_add_r by lia. change (2 ^ 1) with 2. ring.
  - assert (0 <= shr_m (SpecFloat.iter_pos shr_1 p mrs))
      by (rewrite IH by lia; apply Z.div_pos; lia).
    rewrite IH, IH by lia.
    rewrite !Z.div_div by lia. f_equal.
    change (Z.pos p~0) with (2 * Z.pos p).
    replace (2 * Z.pos p) with (Z.pos p + Z.pos p) by lia.
    rewrite !Z.pow_add_r by lia. reflexivity.
  - rewrite shr_1_m by lia. reflexivity.
Qed.

Lemma iter_pos_shr_1_exact (p : positive) (mrs : shr_record) :
  0 <= shr_m mrs -> inexact mrs = false -> (2 ^ Zpos p | shr_m mrs) ->
  inexact (SpecFloat.iter_pos shr_1 p mrs) = false.
Proof.
  revert mrs. induction p as [p IH | p IH |]; intros mrs Hm Hi [k Hk]; simpl SpecFloat.iter_pos.
  - assert (shr_m mrs = 2 * (2 ^ Zpos p * (2 ^ Zpos p * k))) as Hk'.
    { rewrite Hk. change (Z.pos p~1) with (2 * Z.pos p + 1).
      replace (2 * Z.pos p + 1) with (1 + Z.pos p + Z.pos p) by lia.
      rewrite !Z.pow_add_r by lia. change (2 ^ 1) with 2. ring. }
    assert (shr_m (shr_1 mrs) = 2 ^ Zpos p * (2 ^ Zpos p * k)) as H1.
    { rewrite shr_1_m, Hk' by lia. rewrite Z.mul_comm, Z.div_mul by lia. reflexivity. }
    assert (0 <= 2 ^ Z.pos p * k).
    { apply Z.mul_le_mono_pos_l with (p := 2 * 2 ^ Zpos p); [lia | ]. lia. }
    apply IH.
    + rewrite iter_pos_shr_1_m, H1 by lia.
      rewrite Z.mul_comm, Z.div_mul by lia. lia.
    + apply IH; [lia | | exists (2 ^ Z.pos p * k); lia].
      apply shr_1_exact; [lia | done | exists (2 ^ Z.pos p * (2 ^ Z.pos p * k)); lia].
    + rewrite iter_pos_shr_1_m, H1 by lia.
      rewrite Z.mul_comm, Z.div_mul by lia. exists k. lia.
  - assert (shr_m mrs = 2 ^ Zpos p * (2 ^ Zpos p * k)) as Hk'.
    { rewrite Hk. change (Z.pos p~0) with (2 * Z.pos p).
      replace (2 * Z.pos p) with (Z.pos p + Z.pos p) by lia.
      rewrite !Z.pow_add_r by lia. ring. }
    assert (0 <= 2 ^ Z.pos p * k).
    { apply Z.mul_le_mono_pos_l with (p := 2 ^ Zpos p); [lia | ]. lia. }
    apply IH.
    + rewrite iter_pos_shr_1_m, Hk' by lia.
      rewrite Z.mul_comm, Z.div_mul by lia. lia.
    + apply IH; [lia | done | exists (2 ^ Z.pos p * k); lia].
    + rewrite iter_pos_shr_1_m, Hk' by lia.
      rewrite Z.mul_comm, Z.div_mul by lia. exists k. lia.
  - apply shr_1_exact; [lia | done | exists k; rewrite Hk; change (2 ^ 1) with 2; lia].
Qed.

Lemma fexp_b64 (e : Z) : fexp prec emax e = Z.max (e - 53) (-1074).
Proof. reflexivity. Qed.

Lemma shr_record_of_loc_m (m : Z) (l : location) : shr_m (shr_record_of_loc m l) = m.
Proof. destruct l as [|[]]; reflexivity. Qed.

(** The shift to the canonical exponent: the new exponent, the new
    mantissa, and when nothing is dropped. *)
Lemma shr_fexp_spec (m e : Z) (l : location) :
  0 <= m ->
  exists mrs e', shr_fexp prec emax m e l = (mrs, e')
    /\ e' = Z.max e (fexp prec emax (Zdigits2 m + e))
    /\ shr_m mrs = m / 2 ^ (e' - e)
    /\ (l = loc_Exact -> (2 ^ (e' - e) | m) -> inexact mrs = false).
Proof.
  intros Hm. unfold shr_fexp, shr.
  set (f := fexp prec emax (Zdigits2 m + e)).
  destruct (f - e) as [|p|p] eqn:Hn.
  - eexists _, _. split; [reflexivity |].
    replace (Z.max e f) with e by lia. rewrite Z.sub_diag, Z.div_1_r.
    split; [done |]. split; [apply shr_record_of_loc_m |]. by intros ->.
  - eexists _, _. split; [reflexivity |].
    replace (Z.max e f) with (e + Z.pos p) by lia.
    replace (e + Z.pos p - e) with (Z.pos p) by lia.
    split; [done |]. split.
    + rewrite iter_pos_shr_1_m; rewrite shr_record_of_loc_m; done.
    + intros -> Hdiv. by apply iter_pos_shr_1_exact.
  - eexists _, _. split; [reflexivity |].
    replace (Z.max e f) with e by lia. rewrite Z.sub_diag, Z.div_1_r.
    split; [done |]. split; [apply shr_record_of_loc_m |]. by intros ->.
Qed.

(** Rounding to nearest even keeps the mantissa or adds one, and adds one
    only when bits were dropped. *)
Lemma round_nearest_even_cases (mrs : shr_record) :
  round_nearest_even (shr_m mrs) (loc_of_shr_record mrs) = shr_m mrs
  \/ (round_nearest_even (shr_m mrs) (loc_of_shr_record mrs) = shr_m mrs + 1
      /\ inexact mrs = true).
Proof.
  destruct mrs as [m [] []]; unfold inexact; simpl; auto.
  destruct (Z.even m); auto.
Qed.

Lemma Zdigits2_mul_pow2 (m k : Z) :
  0 < m -> 0 <= k -> Zdigits2 (m * 2 ^ k) = Zdigits2 m + k.
Proof.
  intros Hm Hk. rewrite !Zdigits2_log2 by lia.
  rewrite Z.log2_mul_pow2 by lia. lia.
Qed.

Lemma Zdigits2_le (a b : Z) : 0 <= a <= b -> Zdigits2 a <= Zdigits2 b.
Proof.
  intros [Ha Hab]. destruct (decide (a = 0)) as [-> | Hne].
  - apply Zdigits2_nonneg.
  - rewrite !Zdigits2_log2 by lia. pose proof (Z.log2_le_mono a b Hab). lia.
Qed.

Lemma Zdigits2_div_pow2 (m k : Z) :
  0 < m -> 0 <= k < Zdigits2 m ->
  0 < m / 2 ^ k /\ Zdigits2 (m / 2 ^ k) = Zdigits2 m - k.
Proof.
  intros Hm Hk. pose proof (Zdigits2_bounds m Hm) as [Hlo _].
  assert (2 ^ k <= m) as Hkm.
  { etrans; [| exact Hlo]. apply Z.pow_le_mono_r; lia. }
  assert (0 < m / 2 ^ k) as Hpos by (apply Z.div_str_pos; lia).
  split; [done |]. rewrite !Zdigits2_log2 by lia.
  rewrite <- Z.shiftr_div_pow2, Z.log2_shiftr by lia.
  rewrite Zdigits2_log2 in Hk by lia. lia.
Qed.

(** One right shift to the canonical exponent, below a representable bound. *)
Lemma shr_fexp_le (m e : Z) (l : location) (mb : positive) (eb : Z) :
  0 <= m -> canonical_mantissa prec emax mb eb = true ->
  e <= eb -> m <= Zpos mb * 2 ^ (eb - e) ->
  exists mrs e', shr_fexp prec emax m e l = (mrs, e')
    /\ 0 <= shr_m mrs /\ e' <= eb /\ shr_m mrs <= Zpos mb * 2 ^ (eb - e')
    /\ ((m = Zpos mb * 2 ^ (eb - e) -> l = loc_Exact) ->
        shr_m mrs = Zpos mb * 2 ^ (eb - e') -> inexact mrs = false).
Proof.
  intros Hm Hcan He Hle.
  destruct (shr_fexp_spec m e l Hm) as (mrs & e' & Heq & He' & Hmrs & Hex).
  exists mrs, e'. split; [done |].
  unfold canonical_mantissa in Hcan. apply Z.eqb_eq in Hcan.
  assert (Zdigits2 m + e <= Zpos (digits2_pos mb) + eb) as Hmag.
  { change (Z.pos (digits2_pos mb)) with (Zdigits2 (Zpos mb)).
    pose proof (Zdigits2_le m (Zpos mb * 2 ^ (eb - e)) (conj Hm Hle)) as Hd.
    rewrite Zdigits2_mul_pow2 in Hd by lia. lia. }
  assert (e' <= eb) as He'b.
  { rewrite fexp_b64 in *. lia. }
  set (k := e' - e) in *. set (j := eb - e').
  assert (0 <= k) by lia. assert (0 <= j) by lia.
  assert (2 ^ (eb - e) = 2 ^ j * 2 ^ k) as Hpow.
  { rewrite <- Z.pow_add_r by lia. f_equal. lia. }
  assert (0 < 2 ^ k) by lia. assert (0 < 2 ^ j) by lia.
  split; [rewrite Hmrs; apply Z.div_pos; lia |]. split; [done |].
  split.
  { rewrite Hmrs. apply Z.div_le_upper_bound; [lia |]. rewrite Hpow in Hle. lia. }
  intros Hl HK. rewrite Hmrs in HK.
  pose proof (Z.mul_div_le m (2 ^ k) ltac:(lia)) as Hfloor.
  rewrite HK in Hfloor.
  assert (m = Z.pos mb * 2 ^ (eb - e)) as Hmeq by (rewrite Hpow in *; lia).
  apply Hex; [by apply Hl |].
  exists (Z.pos mb * 2 ^ j). rewrite Hmeq, Hpow. ring.
Qed.

(** Rounding does not cross a representable number: what is at most
    [mb * 2 ^ eb] rounds to a zero or to a finite number that is at most
    [mb * 2 ^ eb], with an exponent that is at most [eb]. *)
Lemma binary_round_aux_le (s : bool) (m e : Z) (l : location) (mb : positive) (eb : Z) :
  0 <= m -> bounded prec emax mb eb = true ->
  e <= eb -> m <= Zpos mb * 2 ^ (eb - e) ->
  (m = Zpos mb * 2 ^ (eb - e) -> l = loc_Exact) ->
  binary_round_aux prec emax s m e l = S754_zero s
  \/ exists m' e', binary_round_aux prec emax s m e l = S754_finite s m' e'
       /\ e' <= eb /\ Zpos m' <= Zpos mb * 2 ^ (eb - e').
Proof.
  intros Hm Hb He Hle Hl. unfold bounded in Hb.
  apply andb_prop in Hb as [Hcan Hmax]. apply Z.leb_le in Hmax.
  destruct (shr_fexp_le m e l mb eb Hm Hcan He Hle)
    as (mrs1 & e1 & Heq1 & Hm1 & He1 & Hle1 & Hex1).
  unfold binary_round_aux. rewrite Heq1.
  set (m2 := round_nearest_even (shr_m mrs1) (loc_of_shr_record mrs1)).
  assert (0 <= m2 /\ m2 <= Zpos mb * 2 ^ (eb - e1)) as [Hm2 Hle2].
  { subst m2. destruct (round_nearest_even_cases mrs1) as [-> | [-> Hin]]; [lia |].
    split; [lia |].
    destruct (decide (shr_m mrs1 = Z.pos mb * 2 ^ (eb - e1))) as [HK | HK]; [| lia].
    rewrite (Hex1 Hl HK) in Hin. discriminate. }
  destruct (shr_fexp_le m2 e1 loc_Exact mb eb Hm2 Hcan He1 Hle2)
    as (mrs2 & e2 & Heq2 & Hm3 & He2 & Hle3 & _).
  rewrite Heq2. destruct (shr_m mrs2) as [|m3|m3] eqn:E3; [by left | | lia].
  right. exists m3, e2.
  replace (e2 <=? emax - prec) with true by (symmetry; apply Z.leb_le; lia).
  done.
Qed.

(** Rounding a number that is at least 1. *)
Lemma shr_fexp_mag (m e : Z) (l : location) :
  0 < m -> 1 <= Zdigits2 m + e ->
  exists mrs e', shr_fexp prec emax m e l = (mrs, e')
    /\ 0 < shr_m mrs /\ Zdigits2 (shr_m mrs) + e' = Zdigits2 m + e
    /\ Zdigits2 m + e - 53 <= e'.
Proof.
  intros Hm Hmag.
  destruct (shr_fexp_spec m e l ltac:(lia)) as (mrs & e' & Heq & He' & Hmrs & _).
  exists mrs, e'. split; [done |].
  rewrite fexp_b64 in He'.
  assert (0 < Zdigits2 m) by (rewrite Zdigits2_log2 by lia; pose proof (Z.log2_nonneg m); lia).
  assert (0 <= e' - e < Zdigits2 m) as Hk by lia.
  destruct (Zdigits2_div_pow2 m (e' - e) Hm Hk) as [Hpos Hd].
  rewrite Hmrs. split; [done |]. split; lia.
Qed.

Lemma binary_round_aux_ge (s : bool) (m e : Z) (l : location) :
  0 < m -> 1 <= Zdigits2 m + e ->
  binary_round_aux prec emax s m e l = S754_infinity s
  \/ exists m' e', binary_round_aux prec emax s m e l = S754_finite s m' e'
       /\ -52 <= e'.
Proof.
  intros Hm Hmag.
  destruct (shr_fexp_mag m e l Hm Hmag) as (mrs1 & e1 & Heq1 & Hm1 & Hd1 & He1).
  unfold binary_round_aux. rewrite Heq1.
  set (m2 := round_nearest_even (shr_m mrs1) (loc_of_shr_record mrs1)).
  assert (shr_m mrs1 <= m2 <= shr_m mrs1 + 1) as Hm2.
  { subst m2. destruct (round_nearest_even_cases mrs1) as [-> | [-> _]]; lia. }
  assert (1 <= Zdigits2 m2 + e1) as Hmag2.
  { pose proof (Zdigits2_le (shr_m mrs1) m2 ltac:(lia)). lia. }
  destruct (shr_fexp_mag m2 e1 loc_Exact ltac:(lia) Hmag2)
    as (mrs2 & e2 & Heq2 & Hm3 & Hd2 & He2).
  rewrite Heq2. destruct (shr_m mrs2) as [|m3|m3] eqn:E3; [lia | | lia].
  destruct (e2 <=? emax - prec); [right | by left].
  exists m3, e2. split; [done | lia].
Qed.

(** Rounding a mantissa that is not negative never gives NaN, and keeps
    the sign. *)
Lemma binary_round_aux_cases (s : bool) (m e : Z) (l : location) :
  0 <= m ->
  binary_round_aux prec emax s m e l = S754_zero s
  \/ binary_round_aux prec emax s m e l = S754_infinity s
  \/ exists m' e', binary_round_aux prec emax s m e l = S754_finite s m' e'.
Proof.
  intros Hm.
  destruct (shr_fexp_spec m e l Hm) as (mrs1 & e1 & Heq1 & He1 & Hm1 & _).
  unfold binary_round_aux. rewrite Heq1.
  set (m2 := round_nearest_even (shr_m mrs1) (loc_of_shr_record mrs1)).
  assert (0 <= shr_m mrs1).
  { rewrite Hm1. apply Z.div_pos; [lia |]. apply Z.pow_pos_nonneg; lia. }
  assert (0 <= m2) as Hm2.
  { subst m2. destruct (round_nearest_even_cases mrs1) as [-> | [-> _]]; lia. }
  destruct (shr_fexp_spec m2 e1 loc_Exact Hm2) as (mrs2 & e2 & Heq2 & He2 & Hm3 & _).
  rewrite Heq2.
  assert (0 <= shr_m mrs2).
  { rewrite Hm3. apply Z.div_pos; [lia |]. apply Z.pow_pos_nonneg; lia. }
  destruct (shr_m mrs2) as [|m3|m3]; [by left | | lia].
  destruct (e2 <=? emax - prec); eauto.
Qed.

Lemma Pos_iter_xO (m d : positive) : Zpos (Pos.iter xO m d) = Zpos m * 2 ^ Zpos d.
Proof.
  induction d as [|d IH] using Pos.peano_ind.
  - simpl. lia.
  - rewrite Pos.iter_succ, Pos2Z.inj_xO, IH, Pos2Z.inj_succ, Z.pow_succ_r by lia. ring.
Qed.

Lemma shl_align_spec (m : positive) (e e' : Z) :
  exists m', shl_align m e e' = (m', Z.min e e')
             /\ Zpos m' = Zpos m * 2 ^ (e - Z.min e e').
Proof.
  unfold shl_align. destruct (e' - e) as [|d|d] eqn:Hd.
  - exists m. replace (Z.min e e') with e by lia. rewrite Z.sub_diag. split; [done | lia].
  - exists m. replace (Z.min e e') with e by lia. rewrite Z.sub_diag. split; [done | lia].
  - exists (Pos.iter xO m d). replace (Z.min e e') with e' by lia.
    split; [done |]. rewrite Pos_iter_xO. f_equal. f_equal. lia.
Qed.

(** 1.0 + t for a positive finite t is at least 1.0, or overflows. *)
Lemma SFadd_one_finite (mx : positive) (ex : Z) :
  SFadd prec emax (S754_finite false 4503599627370496 (-52)) (S754_finite false mx ex)
  = S754_infinity false
  \/ exists m e,
       SFadd prec emax (S754_finite false 4503599627370496 (-52)) (S754_finite false mx ex)
       = S754_finite false m e /\ -52 <= e.
Proof.
  unfold SFadd. cbn [cond_Zopp].
  set (ez := Z.min (-52) ex).
  destruct (shl_align_spec 4503599627370496 (-52) ez) as (a & -> & Ha).
  destruct (shl_align_spec mx ex ez) as (b & -> & Hb).
  cbn [fst]. change (Z.pos a + Z.pos b) with (Z.pos (a + b)).
  cbn [binary_normalize]. unfold binary_round.
  destruct (shl_align_spec (a + b) ez
              (fexp prec emax (Z.pos (digits2_pos (a + b)) + ez))) as (mz & -> & Hmz).
  apply binary_round_aux_ge; [lia |].
  set (ez' := Z.min ez _) in *.
  rewrite Hmz, Zdigits2_mul_pow2 by lia.
  replace (Z.min (-52) ez) with ez in Ha by lia.
  assert (Zdigits2 (Z.pos a) <= Zdigits2 (Z.pos (a + b))) as Hd
    by (apply Zdigits2_le; lia).
  rewrite Ha in Hd.
  change 4503599627370496 with (1 * 2 ^ 52) in Hd.
  rewrite <- Z.mul_assoc, <- Z.pow_add_r, Zdigits2_mul_pow2 in Hd by lia.
  change (Zdigits2 1) with 1 in Hd. lia.
Qed.

Lemma new_location_exact (nb : Z) : new_location nb 0 = loc_Exact.
Proof. unfold new_location. destruct (Z.even nb); reflexivity. Qed.

Lemma quotient_below (q r mx my A S E F : Z) :
  0 < mx -> 0 < my -> 0 <= q -> 0 <= r -> 0 < A -> 0 < S -> 1 <= E -> 0 < F <= my ->
  S * E = A * F -> q * my + r = mx * S ->
  q <= mx * A /\ (q = mx * A -> r = 0).
Proof.
  intros Hmx Hmy Hq Hr HA HS HE HF HSE Hdiv.
  assert (q * my * E + r * E = mx * A * F) as H1.
  { transitivity ((q * my + r) * E); [ring |].
    rewrite Hdiv. transitivity (mx * (S * E)); [ring |]. rewrite HSE. ring. }
  assert (mx * A * F <= mx * A * my) as H2 by (apply Z.mul_le_mono_nonneg_l; lia).
  assert (0 <= r * E) by lia.
  assert (q * my <= q * my * E) as H3.
  { rewrite <- (Z.mul_1_r (q * my)) at 1. apply Z.mul_le_mono_nonneg_l; lia. }
  assert (q * my <= mx * A * my) as H4 by lia.
  assert (q <= mx * A) as H5 by (apply Z.mul_le_mono_pos_r with my; lia).
  split; [done |]. intros ->.
  assert (r * E <= 0) by lia.
  assert (r <= r * E).
  { rewrite <- (Z.mul_1_r r) at 1. apply Z.mul_le_mono_nonneg_l; lia. }
  lia.
Qed.

(** A finite number divided by a number that is at least 1.0 is not
    larger, and does not overflow. *)
Lemma SFdiv_finite_le (s : bool) (mx : positive) (ex : Z) (my : positive) (ey : Z) :
  bounded prec emax mx ex = true -> bounded prec emax my ey = true -> -52 <= ey ->
  SFdiv prec emax (S754_finite s mx ex) (S754_finite false my ey) = S754_zero s
  \/ exists m e,
       SFdiv prec emax (S754_finite s mx ex) (S754_finite false my ey) = S754_finite s m e
       /\ e <= ex /\ Zpos m <= Zpos mx * 2 ^ (ex - e).
Proof.
  intros Hbx Hby Hey.
  assert (canonical_mantissa prec emax mx ex = true) as Hcx
    by (unfold bounded in Hbx; by apply andb_prop in Hbx as [? _]).
  assert (canonical_mantissa prec emax my ey = true) as Hcy
    by (unfold bounded in Hby; by apply andb_prop in Hby as [? _]).
  unfold canonical_mantissa in Hcx, Hcy. apply Z.eqb_eq in Hcx, Hcy.
  rewrite fexp_b64 in Hcx, Hcy.
  unfold SFdiv, SFdiv_core_binary. cbn [Zdigits2].
  replace (xorb s false) with s by (by destruct s).
  set (d1 := Z.pos (digits2_pos mx)) in *. set (d2 := Z.pos (digits2_pos my)) in *.
  assert (d2 = 53) as Hd2 by lia.
  pose proof (Zdigits2_bounds (Zpos my) ltac:(lia)) as [Hmy _].
  change (Zdigits2 (Z.pos my)) with d2 in Hmy. rewrite Hd2 in Hmy.
  set (e' := Z.min (fexp prec emax (d1 + ex - (d2 + ey))) (ex - ey)).
  assert (e' <= ex) as He' by (subst e'; rewrite fexp_b64; lia).
  assert (0 <= ex - ey - e') as Hs by lia.
  set (m' := match ex - ey - e' with
             | 0 => Z.pos mx
             | Z.pos _ => Z.shiftl (Z.pos mx) (ex - ey - e')
             | Z.neg _ => 0
             end).
  assert (m' = Zpos mx * 2 ^ (ex - ey - e')) as Hm'.
  { subst m'. destruct (ex - ey - e') as [|p|p] eqn:E; [lia | | lia].
    rewrite Z.shiftl_mul_pow2 by lia. done. }
  clearbody m'.
  pose proof (Z.div_eucl_eq m' (Zpos my) ltac:(lia)) as Heucl.
  pose proof (Z.mod_pos_bound m' (Zpos my) ltac:(lia)) as Hr.
  assert (0 <= m' / Zpos my) as Hq by (apply Z.div_pos; lia).
  unfold Z.modulo in Hr. unfold Z.div in Hq.
  destruct (Z.div_eucl m' (Z.pos my)) as [q r].
  cbn [fst snd] in *.
  destruct (quotient_below q r (Zpos mx) (Zpos my) (2 ^ (ex - e'))
              (2 ^ (ex - ey - e')) (2 ^ Z.max 0 ey) (2 ^ Z.max 0 (- ey)))
    as [Hle Hexact]; try lia.
  - split; [lia |]. etrans; [| exact Hmy]. apply Z.pow_le_mono_r; lia.
  - rewrite <- !Z.pow_add_r by lia. f_equal. lia.
  - apply binary_round_aux_le; try done.
    intros Heq. rewrite (Hexact Heq). apply new_location_exact.
Qed.

Lemma SFmul_finite_cases (sx : bool) (mx : positive) (ex : Z)
    (sy : bool) (my : positive) (ey : Z) :
  SFmul prec emax (S754_finite sx mx ex) (S754_finite sy my ey) = S754_zero (xorb sx sy)
  \/ SFmul prec emax (S754_finite sx mx ex) (S754_finite sy my ey)
     = S754_infinity (xorb sx sy)
  \/ exists m e,
       SFmul prec emax (S754_finite sx mx ex) (S754_finite sy my ey)
       = S754_finite (xorb sx sy) m e.
Proof. unfold SFmul. apply binary_round_aux_cases. lia. Qed.

End Rounding.

(** The predicates of [PrimFloat] on the shapes of [Prim2SF]. *)
Lemma SFeqb_refl_finite (b : bool) (m : positive) (e : Z) :
  SFeqb (S754_finite b m e) (S754_finite b m e) = true.
Proof.
  unfold SFeqb, SFcompare. destruct b; rewrite Z.compare_refl, Pos.compare_cont_refl; done.
Qed.

Lemma is_finite_zero (x : float) (b : bool) : Prim2SF x = S754_zero b -> is_finite x = true.
Proof.
  intros Hx. unfold is_finite, is_nan, is_infinity.
  rewrite !FloatAxioms.eqb_spec, abs_spec, Prim2SF_infinity, Hx. reflexivity.
Qed.

Lemma is_finite_finite (x : float) (b : bool) (m : positive) (e : Z) :
  Prim2SF x = S754_finite b m e -> is_finite x = true.
Proof.
  intros Hx. unfold is_finite, is_nan, is_infinity.
  rewrite !FloatAxioms.eqb_spec, abs_spec, Prim2SF_infinity, Hx, SFeqb_refl_finite.
  reflexivity.
Qed.

Lemma is_finite_infinity (x : float) (b : bool) :
  Prim2SF x = S754_infinity b -> is_finite x = false.
Proof.
  intros Hx. unfold is_finite, is_nan, is_infinity.
  rewrite !FloatAxioms.eqb_spec, abs_spec, Prim2SF_infinity, Hx. by destruct b.
Qed.

Lemma is_zero_zero (x : float) (b : bool) : Prim2SF x = S754_zero b -> is_zero x = true.
Proof.
  intros Hx. unfold is_zero. by rewrite FloatAxioms.eqb_spec, Prim2SF_zero, Hx.
Qed.

Lemma is_nan_Prim2SF (x : float) : is_nan x = true -> Prim2SF x = S754_nan.
Proof.
  unfold is_nan. rewrite FloatAxioms.eqb_spec.
  destruct (Prim2SF x) as [b|b| |b m e]; try done.
  - by destruct b.
  - by rewrite SFeqb_refl_finite.
Qed.

(** The square of a finite double. *)
Lemma SFmul_square (t : spec_float) :
  (exists b, t = S754_zero b) \/ (exists b m e, t = S754_finite b m e) ->
  not_negative (SFmul prec emax t t).
Proof.
  intros [[b ->] | (b & m & e & ->)].
  - left. exists false. by destruct b.
  - destruct (SFmul_finite_cases b m e b m e) as [E | [E | (m' & e' & E)]];
      rewrite E; replace (xorb b b) with false by (by destruct b);
      [left; eauto | right; by left | right; right; eauto].
Qed.

(** [q * s * s] for a [q] that is not negative and a finite [s] which is
    not a zero when [q] is infinite. *)
Lemma SFmul_twice (q s : spec_float) :
  not_negative q ->
  (exists b, s = S754_zero b) \/ (exists b m e, s = S754_finite b m e) ->
  ((exists b, s = S754_zero b) -> q <> S754_infinity false) ->
  not_negative (SFmul prec emax (SFmul prec emax q s) s).
Proof.
  intros Hq Hs Hinf.
  destruct Hs as [[c ->] | (c & ms & es & ->)].
  - destruct Hq as [[b ->] | [-> | (m & e & ->)]].
    + left. eexists. reflexivity.
    + exfalso. apply Hinf; eauto.
    + left. eexists. reflexivity.
  - destruct Hq as [[b ->] | [-> | (m & e & ->)]].
    + left. eexists. reflexivity.
    + right; left. simpl. by destruct c.
    + destruct (SFmul_finite_cases false m e c ms es) as [E | [E | (m' & e' & E)]];
        rewrite E; cbn [xorb].
      * left. eexists. reflexivity.
      * right; left. simpl. by destruct c.
      * destruct (SFmul_finite_cases c m' e' c ms es) as [E' | [E' | (m'' & e'' & E')]];
          rewrite E'; replace (xorb c c) with false by (by destruct c);
          [left; eauto | right; by left | right; right; eauto].
Qed.

(** [1.0 + t] for a [t] that is not negative: plus infinity, or a finite
    number with exponent at least -52. *)
Lemma SFadd_one (t : spec_float) :
  not_negative t ->
  SFadd prec emax (S754_finite false 4503599627370496 (-52)) t = S754_infinity false
  \/ exists m e,
       SFadd prec emax (S754_finite false 4503599627370496 (-52)) t = S754_finite false m e
       /\ (-52 <= e)%Z.
Proof.
  intros [[b ->] | [-> | (m & e & ->)]].
  - right. eexists _, _. split; [reflexivity | lia].
  - by left.
  - apply SFadd_one_finite.
Qed.

(** The value on doubles, at one sample with sine [s]. *)
Lemma value_on_doubles (p0 p1 s : float) :
  is_finite p0 = true -> is_finite p1 = true -> is_finite s = true ->
  (is_zero s = true -> is_finite (p1 * p1) = true) ->
  (1 <=? 1 + p1 * p1 * s * s)%float = true
  /\ is_finite (p0 / (1 + p1 * p1 * s * s)) = true
  /\ (abs (p0 / (1 + p1 * p1 * s * s)) <=? abs p0)%float = true.
Proof.
  intros Hp0 Hp1 Hs Hzero.
  apply is_finite_cases in Hp0, Hp1, Hs.
  pose proof (SFmul_square _ Hp1) as Hq.
  assert (not_negative (Prim2SF (p1 * p1 * s * s))) as Ht.
  { rewrite !mul_spec. apply SFmul_twice; [done | done |].
    intros [b Hb] Hinf.
    assert (is_finite (p1 * p1) = false) as Hnf
      by (apply (is_finite_infinity _ false); by rewrite mul_spec).
    rewrite Hzero in Hnf; [done | by apply (is_zero_zero _ b)]. }
  pose proof (Prim2SF_valid (1 + p1 * p1 * s * s)) as Hvd.
  pose proof (Prim2SF_valid p0) as Hv0.
  pose proof (SFadd_one _ Ht) as Hd.
  rewrite <- Prim2SF_one, <- add_spec in Hd.
  set (dd := (1 + p1 * p1 * s * s)%float) in *.
  assert ((1 <=? dd)%float = true) as H1.
  { rewrite leb_spec, Prim2SF_one.
    destruct Hd as [-> | (m & e & Hd & He)]; [done |].
    rewrite Hd in *. unfold SFleb, SFcompare.
    destruct (Z.compare_spec (-52) e) as [<- | Hlt | Hgt]; [| done | lia].
    cbn [valid_binary] in Hvd. unfold bounded in Hvd.
    apply andb_prop in Hvd as [Hcan _].
    unfold canonical_mantissa in Hcan. apply Z.eqb_eq in Hcan. rewrite fexp_b64 in Hcan.
    pose proof (Zdigits2_bounds (Zpos m) ltac:(lia)) as [Hlo _].
    replace (Zdigits2 (Z.pos m) - 1)%Z with 52%Z in Hlo by (cbn [Zdigits2]; lia).
    rewrite Pos.compare_cont_spec. cbn [Pos.switch_Eq].
    destruct (Pos.compare_spec 4503599627370496 m) as [? | ? | Hgt]; try done.
    exfalso. apply Pos2Z.pos_lt_pos in Hgt. lia. }
  split; [done |].
  assert ((exists b, Prim2SF (p0 / dd) = S754_zero b)
          \/ exists b m e mx ex,
               Prim2SF (p0 / dd) = S754_finite b m e
               /\ Prim2SF p0 = S754_finite b mx ex
               /\ (e <= ex)%Z /\ (Zpos m <= Zpos mx * 2 ^ (ex - e))%Z) as Hv.
  { rewrite div_spec.
    destruct Hp0 as [[c Hc] | (c & mx & ex & Hc)]; rewrite Hc in *.
    - left. destruct Hd as [-> | (m & e & -> & He)]; eexists; reflexivity.
    - destruct Hd as [-> | (m & e & Hd & He)]; [left; eexists; reflexivity |].
      rewrite Hd in *.
      destruct (SFdiv_finite_le c mx ex m e Hv0 Hvd He) as [E | (m' & e' & E & Hle)].
      + left. eexists. exact E.
      + right. exists c, m', e', mx, ex. done. }
  destruct Hv as [[b Hv] | (b & m & e & mx & ex & Hv & Hp & He & Hm)].
  - split; [by apply (is_finite_zero _ b) |].
    rewrite leb_spec, !abs_spec, Hv.
    destruct Hp0 as [[c ->] | (c & mx & ex & ->)]; reflexivity.
  - split; [by apply (is_finite_finite _ b m e) |].
    rewrite leb_spec, !abs_spec, Hv, Hp. unfold SFleb, SFabs, SFcompare.
    destruct (Z.compare_spec e ex) as [-> | Hlt | Hgt]; [| done | lia].
    rewrite Z.sub_diag, Z.mul_1_r in Hm.
    rewrite Pos.compare_cont_spec. cbn [Pos.switch_Eq].
    destruct (Pos.compare_spec m mx) as [? | ? | Hgt]; try done.
    exfalso. apply Pos2Z.pos_lt_pos in Hgt. lia.
Qed.

(** Where the sine is NaN, or a zero while [p1 * p1] overflows, the value
    is NaN. *)
Lemma value_nan_on_doubles (p0 p1 s : float) :
  is_finite p1 = true ->
  is_nan s = true \/ (is_zero s = true /\ is_finite (p1 * p1) = false) ->
  is_nan (p0 / (1 + p1 * p1 * s * s)) = true.
Proof.
  intros Hp1 [Hnan | [Hz Hover]].
  - apply is_nan_Prim2SF in Hnan.
    assert ((p0 / (1 + p1 * p1 * s * s))%float = nan) as ->; [| reflexivity].
    apply Prim2SF_inj. rewrite div_spec, add_spec, !mul_spec, Hnan.
    rewrite Prim2SF_one. generalize (SF64mul (Prim2SF p1) (Prim2SF p1)). intros q.
    destruct (Prim2SF p0), q; reflexivity.
  - rewrite overflow_zero; [reflexivity | | done].
    apply is_finite_cases in Hp1. pose proof (SFmul_square _ Hp1) as Hq.
    rewrite <- mul_spec in Hq.
    destruct Hq as [[b Hq] | [Hq | (m & e & Hq)]].
    + by rewrite (is_finite_zero _ b) in Hover.
    + apply Prim2SF_inj. by rewrite Hq.
    + by rewrite (is_finite_finite _ false m e) in Hover.
Qed.

(** ** The value is bounded, over the reals and on doubles *)

(** C5.  Over the reals the denominator 1 + p1^2 s^2 is at least 1 for all
    p1 and s, [baseResult] divides by a number of that form, and every
    value it returns is bounded by |p0|.  On doubles, for finite p0 and p1
    and whatever the mathematical library: at a sample where the sine the
    library returns is finite, and is not a zero when p1 * p1 overflows,
    the denominator computed is at least 1.0 (it may be plus infinity), and
    the value is finite and bounded by |p0|; at a sample where the sine is
    NaN, or is a zero while p1 * p1 overflows, the value is NaN. *)
Theorem C5_value_bounded :
  (forall (p0 p1 p2 p3 : R) (xdata : list R),
     (forall s : R, (1 <= 1 + p1 ^ 2 * s ^ 2)%R)
     /\ exists v : list R,
          baseResult xdata [p0; p1; p2; p3] = Some v
          /\ v = (fun x => (p0 / (1 + p1 ^ 2 * (sin (PI * x * p2 + p3)) ^ 2))%R) <$> xdata
          /\ Forall (fun y => (0 <= Rabs y <= Rabs p0)%R) v)
  /\ (forall (libm_sin libm_cos : float -> float) (p0 p1 p2 p3 : float)
        (xdata : list float),
        is_finite p0 = true -> is_finite p1 = true ->
        exists v : list float,
          @baseResult float (binary64_ops libm_sin libm_cos) xdata [p0; p1; p2; p3]
          = Some v
          /\ Forall2
               (fun x y =>
                  let s := libm_sin (0x1.921fb54442d18p+1 * x * p2 + p3)%float in
                  let dd := (1 + p1 * p1 * s * s)%float in
                  y = (p0 / dd)%float
                  /\ (is_finite s = true ->
                      (is_zero s = true -> is_finite (p1 * p1)%float = true) ->
                      (1 <=? dd)%float = true
                      /\ is_finite y = true
                      /\ (abs y <=? abs p0)%float = true)
                  /\ (is_nan s = true
                      \/ (is_zero s = true /\ is_finite (p1 * p1)%float = false) ->
                      is_nan y = true))
               xdata v).
Proof.
  split; [exact real_value_bounded |].
  intros sn cs p0 p1 p2 p3 xdata Hp0 Hp1.
  eexists. split; [apply baseResult_pointwise |].
  apply Forall2_fmap_r, Forall_Forall2_diag, Forall_forall. intros x _.
  unfold value_at, phase_at; simpl. rewrite float_of_int_1.
  split; [reflexivity |]. split.
  - intros Hs Hz. by apply value_on_doubles.
  - intros Hn. by apply value_nan_on_doubles.
Qed.

(** The double-precision part at p = [1, 30, 1, 0] and the sample 0.5, for
    a library whose sine there is 1.0. *)
Lemma C5_value_bounded_witness :
  exists y : float,
    @baseResult float (binary64_ops (fun _ => 1%float) (fun _ => 0%float))
      [0.5%float] [1%float; 30%float; 1%float; 0%float] = Some [y]
    /\ (1 <=? 1 + 30 * 30 * 1 * 1)%float = true
    /\ is_finite y = true
    /\ (abs y <=? abs 1)%float = true.
Proof.
  destruct (proj2 C5_value_bounded (fun _ => 1%float) (fun _ => 0%float)
              1%float 30%float 1%float 0%float [0.5%float] eq_refl eq_refl)
    as (v & Hv & Hall).
  apply Forall2_cons_inv_l in Hall as (y & v' & (_ & Hy & _) & Hnil & ->).
  apply Forall2_nil_inv_l in Hnil as ->.
  exists y. split; [exact Hv |]. apply Hy; [reflexivity |].
  intros Hz. vm_compute in Hz. discriminate.
Defined.
